(** * mob: the line decoder and the pipeline combinator of [src/process.h]

    A shallow embedding of [encoded_buffer] (the incremental line decoder
    that sits between an asynchronous pipe and the log) and of
    [process::pipe], followed by the properties the specification states
    about them.

    Conventions.
    - The byte buffer [bytes_] is a [list byte]; pointers into it are byte
      offsets from [bytes.data()], kept in [Z].
    - [std::size_t] is 64 bits wide; the one subtraction of the source
      that can wrap is written with its wrap-around ([size_t_sub]).
    - A dereference outside the buffer is undefined behaviour in C++; the
      model stops there with the fault [out_of_bounds].  [next_line_in]
      follows the compiled code past that point, into the memory that lies
      behind the buffer.
    - The loops run on fuel; [out_of_fuel] is shown never to happen with the
      fuel the top-level functions supply. *)

From Stdlib Require Import ZArith List Bool Lia.
From Stdlib.Strings Require Import Byte.
From Stdlib.Strings Require String.
Import String.StringSyntax.
Delimit Scope string_scope with string.
Import ListNotations.
Open Scope Z_scope.

(** ** Outcomes of a run *)

Inductive fault : Type :=
| out_of_bounds      (* a read outside [bytes.data(), bytes.data()+bytes.size()) *)
| assertion_failed   (* MOB_ASSERT *)
| out_of_fuel.       (* the iteration bound of the model was reached *)

Inductive outcome (A : Type) : Type :=
| Done (a : A)
| Fault (f : fault).

Arguments Done {A} a.
Arguments Fault {A} f.

Definition bind {A B : Type} (m : outcome A) (k : A -> outcome B) : outcome B :=
  match m with
  | Done a => k a
  | Fault f => Fault f
  end.

Notation "x <- m ;; k" := (bind m (fun x => k))
  (at level 61, m at next level, right associativity).
Notation "' pat <- m ;; k" := (bind m (fun x => match x with pat => k end))
  (at level 61, pat pattern, m at next level, right associativity).

(** ** Code units *)

(** The template parameter [CharT] of [next_line]: [char] for the code pages
    and UTF-8, [wchar_t] (two bytes, little endian) for UTF-16. *)
Inductive CharT : Type := char | wchar_t.

Definition sizeof (C : CharT) : Z :=
  match C with
  | char => 1
  | wchar_t => 2
  end.

Definition size_t_max : Z := 2 ^ 64.

(** [a - b] on [std::size_t]. *)
Definition size_t_sub (a b : Z) : Z := (a - b) mod size_t_max.

Definition bytes_size (bytes : list byte) : Z := Z.of_nat (length bytes).

Definition byte_at (bytes : list byte) (i : Z) : outcome Z :=
  if 0 <=? i then
    match nth_error bytes (Z.to_nat i) with
    | Some b => Done (Z.of_N (Byte.to_N b))
    | None => Fault out_of_bounds
    end
  else Fault out_of_bounds.

(** [*p] for [p] a [const CharT*] at byte offset [p]. *)
Definition deref (C : CharT) (bytes : list byte) (p : Z) : outcome Z :=
  match C with
  | char => byte_at bytes p
  | wchar_t =>
      lo <- byte_at bytes p ;;
      hi <- byte_at bytes (p + 1) ;;
      Done (lo + 256 * hi)
  end.

(** [*p == CharT('\n') || *p == CharT('\r')] *)
Definition is_separator (c : Z) : bool := (c =? 10) || (c =? 13).

(** A [std::basic_string_view<CharT>]: where it starts (a byte offset) and
    how many code units it spans. *)
Record view : Type := mk_view { data : Z; count : Z }.

(** The default-constructed view. *)
Definition no_line : view := mk_view 0 0.

Definition empty (v : view) : bool := count v =? 0.

(** ** [encoded_buffer::next_line] *)

(** The inner loop: while [p != end] and [*p] is a separator, [++p]. *)
Fixpoint skip_separators (fuel : nat) (C : CharT) (bytes : list byte)
    (end_ p : Z) : outcome Z :=
  match fuel with
  | O => Fault out_of_fuel
  | S fuel' =>
      if p =? end_ then Done p
      else
        c <- deref C bytes p ;;
        if is_separator c
        then skip_separators fuel' C bytes end_ (p + sizeof C)
        else Done p
  end.

(** The outer loop [while (p != end) { ... }]; it returns the final [p] and
    [line].  At a separator the line is what lies between [start] and [p];
    the separators are skipped; a line that is not empty ends the loop
    ([break]), an empty one moves [start] behind the separators. *)
Fixpoint scan (fuel : nat) (C : CharT) (bytes : list byte)
    (end_ start p : Z) (line : view) : outcome (Z * view) :=
  match fuel with
  | O => Fault out_of_fuel
  | S fuel' =>
      if p =? end_ then Done (p, line)
      else
        c <- deref C bytes p ;;
        if is_separator c then
          let line := mk_view start ((p - start) / sizeof C) in
          p' <- skip_separators fuel C bytes end_ p ;;
          if negb (empty line) then Done (p', line)
          else scan fuel' C bytes end_ p' p' line
        else scan fuel' C bytes end_ start (p + sizeof C) line
  end.

(** [next_line<CharT>(finished, bytes, byte_offset)]: the line found and the
    new value of [byte_offset] (a reference parameter in the source).  The
    last test is [MOB_ASSERT(byte_offset <= bytes.size())]. *)
Definition next_line (C : CharT) (finished : bool) (bytes : list byte)
    (byte_offset : Z) : outcome (view * Z) :=
  let size := bytes_size bytes in
  let size :=
    if sizeof C =? 2
    then (if Z.land size 1 =? 1 then size - 1 else size)
    else size in
  let start := byte_offset in
  let end_ := size in
  '(p, line) <- scan (S (length bytes)) C bytes end_ start start no_line ;;
  if empty line then
    if finished
    then Done (mk_view byte_offset (size_t_sub size byte_offset),
               bytes_size bytes)
    else Done (line, byte_offset)
  else
    if p <=? bytes_size bytes
    then Done (line, p)
    else Fault assertion_failed.

(** The [size] the scan works with: the buffer length, less the dangling
    byte when [CharT] is two bytes wide. *)
Definition usable_size (C : CharT) (bytes : list byte) : Z :=
  let size := bytes_size bytes in
  if sizeof C =? 2
  then (if Z.land size 1 =? 1 then size - 1 else size)
  else size.

(** The three ways out of [next_line]: a terminated line, the final flush,
    or nothing yet. *)
Inductive next_line_result (C : CharT) (finished : bool) (bytes : list byte)
    (byte_offset : Z) (line : view) (byte_offset' : Z) : Prop :=
| line_found :
    empty line = false ->
    byte_offset <= data line ->
    0 < count line ->
    data line + sizeof C * count line + sizeof C <= byte_offset' ->
    byte_offset' <= bytes_size bytes ->
    next_line_result C finished bytes byte_offset line byte_offset'
| tail_flushed :
    finished = true ->
    line = mk_view byte_offset
             (size_t_sub (usable_size C bytes) byte_offset) ->
    byte_offset' = bytes_size bytes ->
    byte_offset <= usable_size C bytes ->
    next_line_result C finished bytes byte_offset line byte_offset'
| nothing_yet :
    finished = false ->
    empty line = true ->
    byte_offset' = byte_offset ->
    byte_offset <= usable_size C bytes ->
    next_line_result C finished bytes byte_offset line byte_offset'.

(** The offset is a whole number of code units before the [end] of the
    scan. *)
Definition well_placed (C : CharT) (bytes : list byte) (byte_offset : Z) : Prop :=
  0 <= byte_offset <= usable_size C bytes /\
  (usable_size C bytes - byte_offset) mod sizeof C = 0.

(** ** Reading a view *)

Fixpoint code_units (bs : list byte) : list Z :=
  match bs with
  | lo :: hi :: rest =>
      (Z.of_N (Byte.to_N lo) + 256 * Z.of_N (Byte.to_N hi)) :: code_units rest
  | _ => []
  end.

Definition slice (bytes : list byte) (from len : Z) : list byte :=
  firstn (Z.to_nat len) (skipn (Z.to_nat from) bytes).

(** The characters of a [std::string_view]; every one of them is read when
    the view is copied or converted. *)
Definition chars_of (bytes : list byte) (v : view) : outcome (list byte) :=
  if (0 <=? data v) && (data v + count v <=? bytes_size bytes)
  then Done (slice bytes (data v) (count v))
  else Fault out_of_bounds.

(** The code units of a [std::wstring_view]. *)
Definition wchars_of (bytes : list byte) (v : view) : outcome (list Z) :=
  if (0 <=? data v) && (data v + 2 * count v <=? bytes_size bytes)
  then Done (code_units (slice bytes (data v) (2 * count v)))
  else Fault out_of_bounds.

(** ** [encoded_buffer] *)

Inductive encodings : Type := dont_know | acp | oem | utf16 | utf8.

Record encoded_buffer : Type := mk_encoded_buffer {
  e_ : encodings;
  bytes_ : list byte;
  last_ : Z
}.

Definition set_last (b : encoded_buffer) (last : Z) : encoded_buffer :=
  mk_encoded_buffer (e_ b) (bytes_ b) last.

(** Modelled from the spec: the constructor [encoded_buffer(e, bytes)] is
    defined outside the header; the decoder starts with nothing emitted. *)
Definition new_buffer (e : encodings) (bytes : list byte) : encoded_buffer :=
  mk_encoded_buffer e bytes 0.

(** Modelled from the spec: [encoded_buffer::add] is defined outside the
    header; it appends the raw bytes and decodes nothing. *)
Definition add (b : encoded_buffer) (bytes : list byte) : encoded_buffer :=
  mk_encoded_buffer (e_ b) (bytes_ b ++ bytes) (last_ b).

Section Decoder.

(** The two conversions live in [utility.h]; the decoder only calls them. *)
Variable utf16_to_utf8 : list Z -> list byte.
Variable bytes_to_utf8 : encodings -> list byte -> list byte.

(** [next_utf8_lines(finished, f)]: the arguments [f] is called with, in
    order, and the buffer afterwards. *)
Fixpoint next_utf8_lines_loop (fuel : nat) (finished : bool)
    (b : encoded_buffer) : outcome (list (list byte) * encoded_buffer) :=
  match fuel with
  | O => Fault out_of_fuel
  | S fuel' =>
      match e_ b with
      | utf16 =>
          '(line, last) <- next_line wchar_t finished (bytes_ b) (last_ b) ;;
          let b := set_last b last in
          if empty line then Done ([], b)
          else
            ws <- wchars_of (bytes_ b) line ;;
            '(rest, b') <- next_utf8_lines_loop fuel' finished b ;;
            Done (utf16_to_utf8 ws :: rest, b')
      | acp | oem =>
          '(line, last) <- next_line char finished (bytes_ b) (last_ b) ;;
          let b := set_last b last in
          if empty line then Done ([], b)
          else
            cp <- chars_of (bytes_ b) line ;;
            '(rest, b') <- next_utf8_lines_loop fuel' finished b ;;
            Done (bytes_to_utf8 (e_ b) cp :: rest, b')
      | utf8 | dont_know =>
          '(line, last) <- next_line char finished (bytes_ b) (last_ b) ;;
          let b := set_last b last in
          if empty line then Done ([], b)
          else
            s <- chars_of (bytes_ b) line ;;
            '(rest, b') <- next_utf8_lines_loop fuel' finished b ;;
            Done (s :: rest, b')
      end
  end.

Definition next_utf8_lines (finished : bool) (b : encoded_buffer)
  : outcome (list (list byte) * encoded_buffer) :=
  next_utf8_lines_loop (S (length (bytes_ b))) finished b.

(** The code unit [next_utf8_lines] scans with, per encoding. *)
Definition code_unit (e : encodings) : CharT :=
  match e with
  | utf16 => wchar_t
  | _ => char
  end.

(** The argument [f] receives for a line, per encoding. *)
Definition converted (e : encodings) (bytes : list byte) (line : view)
  : outcome (list byte) :=
  match e with
  | utf16 => ws <- wchars_of bytes line ;; Done (utf16_to_utf8 ws)
  | acp | oem => cp <- chars_of bytes line ;; Done (bytes_to_utf8 e cp)
  | utf8 | dont_know => chars_of bytes line
  end.

(** A line [f] receives comes from a view that is not empty. *)
Definition from_nonempty_view (e : encodings) (s : list byte) : Prop :=
  match e with
  | utf16 => exists ws, ws <> [] /\ s = utf16_to_utf8 ws
  | acp | oem => exists cp, cp <> [] /\ s = bytes_to_utf8 e cp
  | utf8 | dont_know => s <> []
  end.

(** What [f] receives for the characters [s] of a line when the scan is by
    bytes. *)
Definition in_utf8 (e : encodings) (s : list byte) : list byte :=
  match e with
  | acp | oem => bytes_to_utf8 e s
  | _ => s
  end.

(** What the final flush hands over of the bytes [u] left in the buffer. *)
Definition final_line (e : encodings) (u : list byte) : list (list byte) :=
  match u with
  | [] => []
  | _ => [in_utf8 e u]
  end.

(** A call on the decoder, and a sequence of calls run in order; the lines
    are collected in the order [f] receives them. *)
Inductive call : Type :=
| call_add (bytes : list byte)
| call_next_utf8_lines (finished : bool).

Definition do_call (b : encoded_buffer) (c : call)
  : outcome (list (list byte) * encoded_buffer) :=
  match c with
  | call_add bytes => Done ([], add b bytes)
  | call_next_utf8_lines finished => next_utf8_lines finished b
  end.

Fixpoint run (b : encoded_buffer) (cs : list call)
  : outcome (list (list byte) * encoded_buffer) :=
  match cs with
  | [] => Done ([], b)
  | c :: cs' =>
      '(ls, b1) <- do_call b c ;;
      '(ls', b2) <- run b1 cs' ;;
      Done (ls ++ ls', b2)
  end.

(** The bytes fed chunk by chunk, the lines taken after each chunk and
    once more at the end of the stream; and the bytes fed in one call. *)
Definition fed_open (chunks : list (list byte)) : list call :=
  flat_map (fun c => [call_add c; call_next_utf8_lines false]) chunks.

Definition fed_in_chunks (chunks : list (list byte)) : list call :=
  fed_open chunks ++ [call_next_utf8_lines true].

Definition fed_at_once (bytes : list byte) : list call :=
  [call_add bytes; call_next_utf8_lines true].

Definition is_next_utf8_lines (c : call) : Prop :=
  exists finished, c = call_next_utf8_lines finished.

End Decoder.

(** What a caller observes of a call: the lines and the offset. *)
Definition observed (r : outcome (list (list byte) * encoded_buffer))
  : outcome (list (list byte) * Z) :=
  '(ls, b) <- r ;; Done (ls, last_ b).

Definition lines_of (r : outcome (list (list byte) * encoded_buffer))
  : outcome (list (list byte)) :=
  '(ls, _) <- r ;; Done ls.

(** The bytes of a narrow string literal, and the two separators. *)
Definition text (s : String.string) : list byte :=
  String.list_byte_of_string s.
Arguments text s%_string.
Definition cr : byte := x0d.
Definition lf : byte := x0a.

(** ** The lines of a byte stream, on lists

    What the specification describes for the encodings scanned by bytes:
    ['\n'] and ['\r'] separate lines, a run of them counts once, and a line
    with nothing in it is skipped.  These functions are the reference the
    decoder is compared with; they read a list from left to right, with
    [cur] the bytes of the line being read, last byte first. *)

Definition is_separator_byte (b : byte) : bool :=
  is_separator (Z.of_N (Byte.to_N b)).

(** A byte that is a line separator when the scan is by bytes. *)
Definition separator_byte (b : byte) : Prop := is_separator_byte b = true.

Fixpoint drop_separators (r : list byte) : list byte :=
  match r with
  | [] => []
  | b :: r' => if is_separator_byte b then drop_separators r' else r
  end.

(** The first line that has a separator behind it, and what follows the
    separators. *)
Fixpoint first_line (cur r : list byte) : option (list byte * list byte) :=
  match r with
  | [] => None
  | b :: r' =>
      if is_separator_byte b then
        match cur with
        | [] => first_line [] r'
        | _ => Some (rev cur, drop_separators r')
        end
      else first_line (b :: cur) r'
  end.

(** All the lines that have a separator behind them. *)
Fixpoint terminated_lines (cur r : list byte) : list (list byte) :=
  match r with
  | [] => []
  | b :: r' =>
      if is_separator_byte b then
        match cur with
        | [] => terminated_lines [] r'
        | _ => rev cur :: terminated_lines [] r'
        end
      else terminated_lines (b :: cur) r'
  end.

(** The bytes behind the last separator, last byte first: the line that is
    not terminated yet. *)
Fixpoint pending (cur r : list byte) : list byte :=
  match r with
  | [] => cur
  | b :: r' =>
      if is_separator_byte b then pending [] r' else pending (b :: cur) r'
  end.

(** The decoder has taken every terminated line of the bytes [all] it was
    given: what is left from the offset on has no terminated line, and
    ends with the line that is pending in [all]. *)
Definition settled (b : encoded_buffer) (all : list byte) : Prop :=
  bytes_ b = all /\
  0 <= last_ b <= bytes_size all /\
  first_line [] (skipn (Z.to_nat (last_ b)) all) = None /\
  pending [] (skipn (Z.to_nat (last_ b)) all) = pending [] all.

(** The four inputs of the separator test. *)
Definition separator_inputs : list (list byte) :=
  [ text "a" ++ [cr; lf] ++ text "b";
    text "a" ++ [lf; cr] ++ text "b";
    text "a" ++ [cr] ++ text "b";
    text "a" ++ [lf] ++ text "b" ].

(** Stand-ins for the conversions of [utility.h], to run the decoder on
    concrete input: the low byte of each code unit, and the bytes as they
    are. *)
Definition low_bytes (ws : list Z) : list byte :=
  map (fun w => match Byte.of_N (Z.to_N (w mod 256)) with
                | Some b => b
                | None => x00
                end) ws.

Definition same_bytes (e : encodings) (cp : list byte) : list byte := cp.

(** ** [process::pipe] *)

Section Pipe.

Variable process : Type.

(** [r.pipe_into(p)] is declared in the header and defined elsewhere; as a
    function it gives the value of [r] after the call. *)
Variable pipe_into : process -> process -> process.

(** [pipe(p1, ps...)], the arguments after the first as a list.  The
    recursive call receives [r] by reference to const and works on a copy
    of its own; what it returns is dropped. *)
Fixpoint pipe (p1 : process) (ps : list process) : process :=
  match ps with
  | [] => p1
  | p2 :: ps' =>
      let r := pipe_into p1 p2 in
      let _ := pipe r ps' in
      r
  end.

End Pipe.

(** Modelled from the spec: [process::pipe_into] is not part of the header.
    Of a process only the chain of commands is kept, each one's captured
    stdout being the stdin of the next; piping [r] into [p] puts the
    commands of [p] behind those of [r]. *)
Record process : Type := mk_process { commands : list String.string }.

Definition pipe_into (r p : process) : process :=
  mk_process (commands r ++ commands p).

(** The chain the specification describes for [pipe(p1, ..., pn)]. *)
Definition left_to_right (p1 : process) (ps : list process)
  : list String.string :=
  commands p1 ++ flat_map commands ps.

(** ** The flags of [process]

    The three enumerations of the class, with the values the header gives
    them.  [flags_t] and [arg_flags] are combined with [|] and tested with
    [&]; [stream_flags] are counted from 1. *)

Inductive flags_t : Type :=
| noflags | allow_failure | terminate_on_interrupt | ignore_output_on_success.

Definition flags_t_value (f : flags_t) : Z :=
  match f with
  | noflags => 0x00
  | allow_failure => 0x01
  | terminate_on_interrupt => 0x02
  | ignore_output_on_success => 0x04
  end.

Inductive arg_flags : Type :=
| noargflags | log_debug | log_trace | log_dump | log_quiet
| nospace | quote | forward_slashes.

Definition arg_flags_value (f : arg_flags) : Z :=
  match f with
  | noargflags => 0x00
  | log_debug => 0x01
  | log_trace => 0x02
  | log_dump => 0x04
  | log_quiet => 0x08
  | nospace => 0x10
  | quote => 0x20
  | forward_slashes => 0x40
  end.

(** Flags joined with [|]. *)
Definition joined (values : list Z) : Z := fold_right Z.lor 0 values.

(** [flags & f], taken as a condition. *)
Definition has_flag (flags f : Z) : bool := negb (Z.land flags f =? 0).

(** ** [python::parsed_version] and the names made of it

    The version is matched against a [std::regex] of the ECMAScript
    grammar.  The model has the constructs that regular expression uses, and
    matches by backtracking: [matches r m s] lists the ways [r] matches at
    the start of [s], each with its captures and what is left of [s], in
    the order a backtracking matcher tries them (a quantifier takes as much
    as it can first).  [std::regex_match] asks for the whole of the string,
    and takes the first way that leaves nothing. *)

Inductive regex : Type :=
| re_char (c : byte)                (* the character [c] *)
| re_plus (p : byte -> bool)        (* one or more characters of a class *)
| re_seq (r1 r2 : regex)            (* [r1] then [r2] *)
| re_opt (r : regex)                (* [r?] *)
| re_group (n : nat) (r : regex).   (* [(r)], the capture [m[n]] *)

(** [\d], in the classic locale. *)
Definition is_digit (c : byte) : bool :=
  (48 <=? Z.of_N (Byte.to_N c)) && (Z.of_N (Byte.to_N c) <=? 57).

(** [std::smatch]: [m[n].str()], empty for a group that took no part. *)
Definition captures : Type := nat -> list byte.

Definition no_captures : captures := fun _ => [].

Definition capture (n : nat) (s : list byte) (m : captures) : captures :=
  fun k => if Nat.eqb k n then s else m k.

(** What is left of [s] after one or more characters of the class [p], the
    longest run first. *)
Fixpoint plus_rests (p : byte -> bool) (s : list byte) : list (list byte) :=
  match s with
  | [] => []
  | c :: s' => if p c then plus_rests p s' ++ [s'] else []
  end.

(** The part of [s] in front of [rest]. *)
Definition matched (s rest : list byte) : list byte :=
  firstn (length s - length rest) s.

Fixpoint matches (r : regex) (m : captures) (s : list byte)
  : list (captures * list byte) :=
  match r with
  | re_char c =>
      match s with
      | c' :: s' => if Byte.eqb c c' then [(m, s')] else []
      | [] => []
      end
  | re_plus p => map (fun s' => (m, s')) (plus_rests p s)
  | re_seq r1 r2 =>
      flat_map (fun x => matches r2 (fst x) (snd x)) (matches r1 m s)
  | re_opt r' => matches r' m s ++ [(m, s)]
  | re_group n r' =>
      map (fun x => (capture n (matched s (snd x)) (fst x), snd x))
          (matches r' m s)
  end.

Definition nothing_left (x : captures * list byte) : bool :=
  match snd x with
  | [] => true
  | _ => false
  end.

(** [std::regex_match(s, m, re)]. *)
Definition regex_match (r : regex) (s : list byte) : option captures :=
  match find nothing_left (matches r no_captures s) with
  | Some x => Some (fst x)
  | None => None
  end.

(** [v?(\d+)\.(\d+)(?:\.(\d+))?] *)
Definition version_re : regex :=
  re_seq (re_opt (re_char "v"))
    (re_seq (re_group 1 (re_plus is_digit))
       (re_seq (re_char ".")
          (re_seq (re_group 2 (re_plus is_digit))
             (re_opt (re_seq (re_char ".") (re_group 3 (re_plus is_digit))))))).

(** The pieces of [version_re] behind the optional [v]. *)
Definition patch_re : regex :=
  re_opt (re_seq (re_char ".") (re_group 3 (re_plus is_digit))).

Definition minor_re : regex := re_seq (re_group 2 (re_plus is_digit)) patch_re.

Definition major_re : regex :=
  re_seq (re_group 1 (re_plus is_digit)) (re_seq (re_char ".") minor_re).

Record version_info : Type := mk_version_info {
  major : list byte;
  minor : list byte;
  patch : list byte
}.

(** [python::parsed_version], of the string [version()] gives; [None] is
    [bail_out]. *)
Definition parsed_version (version : list byte) : option version_info :=
  match regex_match version_re version with
  | None => None
  | Some m => Some (mk_version_info (m 1%nat) (m 2%nat) (m 3%nat))
  end.

(** [python::version_without_v] *)
Definition version_without_v (version : list byte) : option (list byte) :=
  match parsed_version version with
  | None => None
  | Some v =>
      let s := major v ++ text "." ++ minor v in
      Some (match patch v with
            | [] => s
            | _ => s ++ text "." ++ patch v
            end)
  end.

(** [python::version_for_dll] *)
Definition version_for_dll (version : list byte) : option (list byte) :=
  match parsed_version version with
  | None => None
  | Some v => Some (major v ++ minor v)
  end.

(** A version string without the [v] it may begin with. *)
Definition without_leading_v (s : list byte) : list byte :=
  match s with
  | c :: s' => if Byte.eqb "v" c then s' else s
  | [] => []
  end.

Definition digits (s : list byte) : Prop :=
  s <> [] /\ Forall (fun c => is_digit c = true) s.

(** ** [next_line] behind the buffer

    [deref] stops at a read outside the buffer, where C++ leaves the
    behaviour undefined.  The compiled code does not stop there: the read
    gives what the memory holds at that address, or ends the process where
    the address cannot be read.  To follow [next_line] behind the buffer,
    a [memory] gives the byte at each offset from [bytes.data()], [None]
    where there is nothing to read.  The loops are those of [skip_separators]
    and [scan] with [fetch] for [deref]; nothing bounds them any more, so
    they run on the fuel they are given.  Offsets stay in [Z]: a scan comes
    to an address that cannot be read long before a pointer could wrap
    around. *)

Definition memory : Type := Z -> option Z.

Definition load (m : memory) (p : Z) : outcome Z :=
  match m p with
  | Some c => Done c
  | None => Fault out_of_bounds
  end.

(** [*p] for [p] a [const CharT*] at byte offset [p], read from the memory. *)
Definition fetch (m : memory) (C : CharT) (p : Z) : outcome Z :=
  match C with
  | char => load m p
  | wchar_t =>
      lo <- load m p ;;
      hi <- load m (p + 1) ;;
      Done (lo + 256 * hi)
  end.

Fixpoint skip_separators_in (m : memory) (fuel : nat) (C : CharT)
    (end_ p : Z) : outcome Z :=
  match fuel with
  | O => Fault out_of_fuel
  | S fuel' =>
      if p =? end_ then Done p
      else
        c <- fetch m C p ;;
        if is_separator c
        then skip_separators_in m fuel' C end_ (p + sizeof C)
        else Done p
  end.

Fixpoint scan_in (m : memory) (fuel : nat) (C : CharT)
    (end_ start p : Z) (line : view) : outcome (Z * view) :=
  match fuel with
  | O => Fault out_of_fuel
  | S fuel' =>
      if p =? end_ then Done (p, line)
      else
        c <- fetch m C p ;;
        if is_separator c then
          let line := mk_view start ((p - start) / sizeof C) in
          p' <- skip_separators_in m fuel C end_ p ;;
          if negb (empty line) then Done (p', line)
          else scan_in m fuel' C end_ p' p' line
        else scan_in m fuel' C end_ start (p + sizeof C) line
  end.

(** [next_line<CharT>(finished, bytes, byte_offset)] in the memory [m].  When
    the loop is left with a line, [byte_offset] is set to [p] and
    [MOB_ASSERT(byte_offset <= bytes.size())] is evaluated on it. *)
Definition next_line_in (m : memory) (fuel : nat) (C : CharT)
    (finished : bool) (bytes : list byte) (byte_offset : Z)
  : outcome (view * Z) :=
  let size := bytes_size bytes in
  let size :=
    if sizeof C =? 2
    then (if Z.land size 1 =? 1 then size - 1 else size)
    else size in
  let start := byte_offset in
  let end_ := size in
  '(p, line) <- scan_in m fuel C end_ start start no_line ;;
  if empty line then
    if finished
    then Done (mk_view byte_offset (size_t_sub size byte_offset),
               bytes_size bytes)
    else Done (line, byte_offset)
  else
    if p <=? bytes_size bytes
    then Done (line, p)
    else Fault assertion_failed.

(** The memory [m] has the buffer at [bytes.data()]. *)
Definition holds (m : memory) (bytes : list byte) : Prop :=
  forall i c, byte_at bytes i = Done c -> m i = Some c.

(** A memory with the buffer, the bytes [behind] it, and nothing else that
    can be read. *)
Definition around (bytes behind : list byte) : memory :=
  fun i =>
    match byte_at (bytes ++ behind) i with
    | Done c => Some c
    | Fault _ => None
    end.

(** ** Facts about the lines of a list *)

Lemma first_line_drop_separators r :
  first_line [] (drop_separators r) = first_line [] r.
Proof.
  induction r as [|b r IH]; [reflexivity|]. cbn [drop_separators first_line].
  destruct (is_separator_byte b) eqn:Eb; [exact IH|].
  cbn [first_line]. now rewrite Eb.
Qed.

Lemma terminated_lines_drop_separators r :
  terminated_lines [] (drop_separators r) = terminated_lines [] r.
Proof.
  induction r as [|b r IH]; [reflexivity|].
  cbn [drop_separators terminated_lines].
  destruct (is_separator_byte b) eqn:Eb; [exact IH|].
  cbn [terminated_lines]. now rewrite Eb.
Qed.

Lemma pending_drop_separators r :
  pending [] (drop_separators r) = pending [] r.
Proof.
  induction r as [|b r IH]; [reflexivity|].
  cbn [drop_separators pending].
  destruct (is_separator_byte b) eqn:Eb; [exact IH|].
  cbn [pending]. now rewrite Eb.
Qed.

Lemma drop_separators_length r :
  (length (drop_separators r) <= length r)%nat.
Proof.
  induction r as [|b r IH]; cbn [drop_separators length]; [lia|].
  destruct (is_separator_byte b); cbn [length]; lia.
Qed.

Lemma drop_separators_suffix r :
  skipn (length r - length (drop_separators r)) r = drop_separators r.
Proof.
  induction r as [|b r IH]; [reflexivity|].
  cbn [drop_separators]. destruct (is_separator_byte b).
  - pose proof (drop_separators_length r).
    replace (length (b :: r) - length (drop_separators r))%nat
      with (S (length r - length (drop_separators r))) by (cbn [length]; lia).
    exact IH.
  - now rewrite Nat.sub_diag.
Qed.

(** The lines, one after the other. *)
Lemma terminated_lines_first cur r :
  terminated_lines cur r =
  match first_line cur r with
  | None => []
  | Some (l, u) => l :: terminated_lines [] u
  end.
Proof.
  revert cur. induction r as [|b r IH]; intros cur; [reflexivity|].
  cbn [terminated_lines first_line].
  destruct (is_separator_byte b); [|apply IH].
  destruct cur; [apply IH|].
  now rewrite terminated_lines_drop_separators.
Qed.

Lemma pending_first cur r l u :
  first_line cur r = Some (l, u) -> pending cur r = pending [] u.
Proof.
  revert cur. induction r as [|b r IH]; intros cur; [discriminate|].
  cbn [first_line pending].
  destruct (is_separator_byte b); [|apply IH].
  destruct cur; [apply IH|].
  intros [= _ <-]. now rewrite pending_drop_separators.
Qed.

(** What is left behind the first line is the end of the list, and
    shorter. *)
Lemma first_line_suffix cur r l u :
  first_line cur r = Some (l, u) ->
  (length u < length r)%nat /\ skipn (length r - length u) r = u.
Proof.
  revert cur. induction r as [|b r IH]; intros cur; [discriminate|].
  cbn [first_line].
  assert (forall u', (length u' < length r)%nat /\
                     skipn (length r - length u') r = u' ->
                     (length u' < length (b :: r))%nat /\
                     skipn (length (b :: r) - length u') (b :: r) = u') as Hcons.
  { intros u' [H1 H2]. cbn [length]. split; [lia|].
    replace (S (length r) - length u')%nat with (S (length r - length u'))
      by lia.
    exact H2. }
  destruct (is_separator_byte b).
  - destruct cur.
    + intros H. apply Hcons. eapply IH; eauto.
    + intros [= _ <-]. pose proof (drop_separators_length r).
      cbn [length]. split; [lia|].
      replace (S (length r) - length (drop_separators r))%nat
        with (S (length r - length (drop_separators r))) by lia.
      apply drop_separators_suffix.
  - intros H. apply Hcons. eapply IH; eauto.
Qed.

(** Bytes that arrive later: the lines found so far stay, and the scan goes
    on from the line that was pending. *)
Lemma terminated_lines_app cur r m :
  terminated_lines cur (r ++ m) =
  terminated_lines cur r ++ terminated_lines (pending cur r) m.
Proof.
  revert cur. induction r as [|b r IH]; intros cur; [reflexivity|].
  cbn [app terminated_lines pending].
  destruct (is_separator_byte b); [|apply IH].
  destruct cur; rewrite IH; reflexivity.
Qed.

Lemma pending_app cur r m :
  pending cur (r ++ m) = pending (pending cur r) m.
Proof.
  revert cur. induction r as [|b r IH]; intros cur; [reflexivity|].
  cbn [app pending]. destruct (is_separator_byte b); apply IH.
Qed.

(** With no terminated line in it, a list is some separators and the
    pending line. *)
Lemma no_line_drop_separators r :
  first_line [] r = None -> drop_separators r = rev (pending [] r).
Proof.
  assert (forall r cur, first_line cur r = None ->
                        rev (pending cur r) =
                        match cur with
                        | [] => drop_separators r
                        | _ => rev cur ++ r
                        end) as H.
  { clear r. induction r as [|b r IH]; intros cur Hn.
    - cbn [pending]. destruct cur; [reflexivity|now rewrite app_nil_r].
    - cbn [first_line pending drop_separators] in *.
      destruct (is_separator_byte b).
      + destruct cur; [now apply IH|discriminate].
      + rewrite (IH _ Hn). cbn [rev].
        destruct cur; [reflexivity|].
        now rewrite <- app_assoc. }
  intros Hn. now rewrite (H r [] Hn).
Qed.

(** ** Facts about reads *)

Ltac bind_inv H :=
  match type of H with
  | bind ?m _ = Done _ =>
      let E := fresh "E" in
      destruct m eqn:E; cbn [bind] in H; [|discriminate H]
  end.

Lemma byte_at_Done bytes i c :
  byte_at bytes i = Done c -> 0 <= i < bytes_size bytes.
Proof.
  unfold byte_at, bytes_size.
  destruct (0 <=? i) eqn:Hi; [|discriminate].
  destruct (nth_error bytes (Z.to_nat i)) eqn:Hn; [|discriminate].
  intros _. apply Z.leb_le in Hi.
  assert (Z.to_nat i < length bytes)%nat by (apply nth_error_Some; congruence).
  lia.
Qed.

Lemma byte_at_in_bounds bytes i :
  0 <= i < bytes_size bytes -> exists c, byte_at bytes i = Done c.
Proof.
  unfold byte_at, bytes_size. intros Hi.
  destruct (0 <=? i) eqn:E; [|apply Z.leb_gt in E; lia].
  destruct (nth_error bytes (Z.to_nat i)) eqn:Hn; [eauto|].
  apply nth_error_None in Hn. lia.
Qed.

Lemma byte_at_Fault bytes i f : byte_at bytes i = Fault f -> f = out_of_bounds.
Proof.
  unfold byte_at. destruct (0 <=? i); [|congruence].
  destruct (nth_error bytes (Z.to_nat i)); congruence.
Qed.

Lemma sizeof_pos C : 1 <= sizeof C <= 2.
Proof. destruct C; simpl; lia. Qed.

Lemma sizeof_cases C : sizeof C = 1 \/ sizeof C = 2.
Proof. destruct C; auto. Qed.

(** Arithmetic on offsets that are whole code units apart. *)
Ltac by_width C :=
  let Hs := fresh "Hs" in
  destruct (sizeof_cases C) as [Hs|Hs]; rewrite Hs in *;
  Z.div_mod_to_equations; lia.

Lemma deref_Done C bytes p c :
  deref C bytes p = Done c -> 0 <= p /\ p + sizeof C <= bytes_size bytes.
Proof.
  destruct C; simpl; intros H.
  - apply byte_at_Done in H. lia.
  - bind_inv H. bind_inv H.
    apply byte_at_Done in E, E0. lia.
Qed.

Lemma deref_in_bounds C bytes p :
  0 <= p -> p + sizeof C <= bytes_size bytes -> exists c, deref C bytes p = Done c.
Proof.
  destruct C; simpl; intros H0 H1.
  - apply byte_at_in_bounds. lia.
  - destruct (byte_at_in_bounds bytes p) as [lo ->]; [lia|].
    destruct (byte_at_in_bounds bytes (p + 1)) as [hi ->]; [lia|].
    simpl. eauto.
Qed.

Lemma deref_Fault C bytes p f : deref C bytes p = Fault f -> f = out_of_bounds.
Proof.
  destruct C; simpl.
  - apply byte_at_Fault.
  - destruct (byte_at bytes p) eqn:E; simpl.
    + destruct (byte_at bytes (p + 1)) eqn:E'; simpl; [discriminate|].
      intros [= <-]. eapply byte_at_Fault; eauto.
    + intros [= <-]. eapply byte_at_Fault; eauto.
Qed.

(** ** The scanning loops *)

Section Scan.

Variable C : CharT.
Variable bytes : list byte.
Variable end_ : Z.
Hypothesis end_in_buffer : 0 <= end_ <= bytes_size bytes.

Lemma skip_separators_Done fuel p p' :
  skip_separators fuel C bytes end_ p = Done p' ->
  0 <= p <= p' /\ p' <= bytes_size bytes.
Proof.
  revert p. induction fuel as [|fuel IH]; simpl; intros p H; [discriminate|].
  destruct (p =? end_) eqn:Ep.
  - apply Z.eqb_eq in Ep. injection H as <-. lia.
  - bind_inv H. apply deref_Done in E. pose proof (sizeof_pos C).
    destruct (is_separator a).
    + apply IH in H. lia.
    + injection H as <-. lia.
Qed.

(** After the inner loop [p] is at [end] or at a code unit that is no
    separator. *)
Lemma skip_separators_stops fuel p p' :
  skip_separators fuel C bytes end_ p = Done p' ->
  p' = end_ \/ exists c, deref C bytes p' = Done c /\ is_separator c = false.
Proof.
  revert p. induction fuel as [|fuel IH]; simpl; intros p H; [discriminate|].
  destruct (p =? end_) eqn:Ep.
  - apply Z.eqb_eq in Ep. injection H as <-. now left.
  - bind_inv H. destruct (is_separator a) eqn:Es.
    + eauto.
    + injection H as <-. right. eauto.
Qed.

Lemma skip_separators_advances fuel p p' c :
  p <> end_ -> deref C bytes p = Done c -> is_separator c = true ->
  skip_separators fuel C bytes end_ p = Done p' ->
  p + sizeof C <= p'.
Proof.
  intros Hp Hc Hs H. destruct fuel as [|fuel]; simpl in H; [discriminate|].
  apply Z.eqb_neq in Hp. rewrite Hp, Hc in H. simpl in H. rewrite Hs in H.
  apply skip_separators_Done in H. lia.
Qed.

Lemma skip_separators_fuel fuel p :
  (0 < fuel)%nat -> bytes_size bytes - Z.max 0 p < Z.of_nat fuel ->
  skip_separators fuel C bytes end_ p <> Fault out_of_fuel.
Proof.
  revert p. induction fuel as [|fuel IH]; simpl; intros p H0 Hf; [lia|].
  destruct (p =? end_); [discriminate|].
  destruct (deref C bytes p) eqn:E; simpl.
  - apply deref_Done in E. pose proof (sizeof_pos C).
    destruct (is_separator a); [|discriminate].
    apply IH; lia.
  - apply deref_Fault in E. subst. discriminate.
Qed.

(** What the outer loop returns: it ran to [end] without a line, or it
    stopped behind the separators that close a line that is not empty. *)
Lemma scan_Done fuel start p line p' line' :
  start <= p ->
  scan fuel C bytes end_ start p line = Done (p', line') ->
  0 <= p <= p' /\ p' <= bytes_size bytes /\
  ((p' = end_ /\ (empty line = true -> empty line' = true)) \/
   (empty line' = false /\ start <= data line' /\ 0 < count line' /\
    data line' + sizeof C * count line' + sizeof C <= p')).
Proof.
  revert start p line.
  induction fuel as [|fuel IH]; intros start p line Hsp H; [discriminate|].
  cbn [scan] in H. destruct (p =? end_) eqn:Ep.
  - apply Z.eqb_eq in Ep. injection H as <- <-.
    repeat split; try lia. now left.
  - bind_inv H. pose proof (deref_Done _ _ _ _ E) as Hb.
    pose proof (sizeof_pos C) as Hw.
    destruct (is_separator a) eqn:Es.
    + bind_inv H. rename a0 into q.
      pose proof (skip_separators_Done _ _ _ E0) as Hq.
      assert (p + sizeof C <= q) as Hadv.
      { apply (skip_separators_advances (S fuel) p q a); auto.
        now apply Z.eqb_neq. }
      unfold empty in H; cbn [count negb] in H.
      destruct ((p - start) / sizeof C =? 0) eqn:Ec; cbn [negb] in H.
      * apply IH in H; [|lia].
        destruct H as (H1 & H2 & [[H3 H4]|(H3 & H4 & H5)]).
        -- repeat split; try lia. left. split; [lia|].
           intros _. apply H4. exact Ec.
        -- repeat split; try lia. right. repeat split; try lia. exact H3.
      * injection H as <- <-. apply Z.eqb_neq in Ec.
        assert (0 <= (p - start) / sizeof C) by (apply Z.div_pos; lia).
        assert (sizeof C * ((p - start) / sizeof C) <= p - start)
          by (apply Z.mul_div_le; lia).
        repeat split; try lia. right.
        unfold empty; cbn [data count]. repeat split; lia.
    + apply IH in H; [|lia].
      destruct H as (H1 & H2 & [[H3 H4]|(H3 & H4 & H5)]).
      * repeat split; try lia. now left.
      * repeat split; try lia. now right.
Qed.

Lemma scan_fuel fuel start p line :
  (0 < fuel)%nat -> bytes_size bytes - Z.max 0 p < Z.of_nat fuel ->
  scan fuel C bytes end_ start p line <> Fault out_of_fuel.
Proof.
  revert start p line.
  induction fuel as [|fuel IH]; intros start p line H0 Hf; [lia|].
  cbn [scan]. destruct (p =? end_) eqn:Ep; [discriminate|].
  destruct (deref C bytes p) eqn:E; cbn [bind].
  - pose proof (deref_Done _ _ _ _ E) as Hb. pose proof (sizeof_pos C) as Hw.
    destruct (is_separator a) eqn:Es.
    + destruct (skip_separators (S fuel) C bytes end_ p) as [q|f] eqn:E0;
        cbn [bind].
      * pose proof (skip_separators_Done _ _ _ E0) as Hq.
        assert (p + sizeof C <= q) as Hadv.
        { apply (skip_separators_advances (S fuel) p q a); auto.
        now apply Z.eqb_neq. }
        destruct (negb _); [discriminate|]. apply IH; lia.
      * intros [= ->]. revert E0. apply skip_separators_fuel; lia.
    + apply IH; lia.
  - apply deref_Fault in E. subst. discriminate.
Qed.

Lemma skip_separators_Fault fuel p f :
  skip_separators fuel C bytes end_ p = Fault f ->
  f = out_of_bounds \/ f = out_of_fuel.
Proof.
  revert p. induction fuel as [|fuel IH]; simpl; intros p H.
  - injection H as <-. now right.
  - destruct (p =? end_); [discriminate|].
    destruct (deref C bytes p) eqn:E; simpl in H.
    + destruct (is_separator a); [eauto|discriminate].
    + injection H as <-. left. eapply deref_Fault; eauto.
Qed.

Lemma scan_Fault fuel start p line f :
  scan fuel C bytes end_ start p line = Fault f ->
  f = out_of_bounds \/ f = out_of_fuel.
Proof.
  revert start p line.
  induction fuel as [|fuel IH]; intros start p line H.
  - injection H as <-. now right.
  - cbn [scan] in H. destruct (p =? end_); [discriminate|].
    destruct (deref C bytes p) eqn:E; cbn [bind] in H.
    + destruct (is_separator a).
      * destruct (skip_separators (S fuel) C bytes end_ p) eqn:E0;
          cbn [bind] in H.
        -- destruct (negb _); [discriminate|eauto].
        -- injection H as <-. eapply skip_separators_Fault; eauto.
      * eauto.
    + injection H as <-. left. eapply deref_Fault; eauto.
Qed.

(** The loops step in whole code units. *)
Lemma skip_separators_aligned fuel p p' :
  skip_separators fuel C bytes end_ p = Done p' ->
  (p' - p) mod sizeof C = 0.
Proof.
  revert p. induction fuel as [|fuel IH]; simpl; intros p H; [discriminate|].
  destruct (p =? end_).
  - injection H as <-. now rewrite Z.sub_diag.
  - bind_inv H. destruct (is_separator a).
    + apply IH in H. by_width C.
    + injection H as <-. now rewrite Z.sub_diag.
Qed.

Lemma scan_aligned fuel start p line p' line' :
  scan fuel C bytes end_ start p line = Done (p', line') ->
  (p' - p) mod sizeof C = 0.
Proof.
  revert start p line.
  induction fuel as [|fuel IH]; intros start p line H; [discriminate|].
  cbn [scan] in H. destruct (p =? end_).
  - injection H as <- <-. now rewrite Z.sub_diag.
  - bind_inv H. destruct (is_separator a).
    + bind_inv H. apply skip_separators_aligned in E0.
      destruct (negb _).
      * injection H as <- <-. exact E0.
      * apply IH in H. by_width C.
    + apply IH in H. by_width C.
Qed.

Lemma aligned_step p :
  p <= end_ -> p <> end_ -> (end_ - p) mod sizeof C = 0 ->
  p + sizeof C <= end_ /\ (end_ - (p + sizeof C)) mod sizeof C = 0.
Proof. intros. by_width C. Qed.

(** Started a whole number of code units before [end], the loops stay
    before [end]. *)
Lemma skip_separators_within fuel p p' :
  p <= end_ -> (end_ - p) mod sizeof C = 0 ->
  skip_separators fuel C bytes end_ p = Done p' ->
  p' <= end_ /\ (end_ - p') mod sizeof C = 0.
Proof.
  revert p. induction fuel as [|fuel IH]; simpl; intros p Hp Hm H; [discriminate|].
  destruct (p =? end_) eqn:Ep; [injection H as <-; auto|].
  apply Z.eqb_neq in Ep. bind_inv H.
  destruct (is_separator a); [|injection H as <-; auto].
  destruct (aligned_step p) as [H1 H2]; auto. eapply IH; eauto.
Qed.

Lemma scan_within fuel start p line p' line' :
  p <= end_ -> (end_ - p) mod sizeof C = 0 ->
  scan fuel C bytes end_ start p line = Done (p', line') ->
  p' <= end_ /\ (end_ - p') mod sizeof C = 0.
Proof.
  revert start p line.
  induction fuel as [|fuel IH]; intros start p line Hp Hm H; [discriminate|].
  cbn [scan] in H.
  destruct (p =? end_) eqn:Ep; [injection H as <- <-; auto|].
  apply Z.eqb_neq in Ep. bind_inv H.
  destruct (aligned_step p) as [H1 H2]; auto.
  destruct (is_separator a).
  - bind_inv H. apply skip_separators_within in E0 as [H3 H4]; auto.
    destruct (negb _); [injection H as <- <-; auto|].
    exact (IH _ _ _ H3 H4 H).
  - exact (IH _ _ _ H1 H2 H).
Qed.

(** ... and they read inside the buffer only, and return. *)
Lemma skip_separators_total fuel p :
  0 <= p <= end_ -> (end_ - p) mod sizeof C = 0 ->
  end_ - p < Z.of_nat fuel ->
  exists p', skip_separators fuel C bytes end_ p = Done p'.
Proof.
  revert p. induction fuel as [|fuel IH]; simpl; intros p Hp Hm Hf; [lia|].
  destruct (p =? end_) eqn:Ep; [eauto|]. apply Z.eqb_neq in Ep.
  destruct (aligned_step p) as [H1 H2]; auto; [lia|].
  destruct (deref_in_bounds C bytes p) as [c ->]; [lia|lia|].
  cbn [bind]. destruct (is_separator c); [|eauto].
  pose proof (sizeof_pos C).
  apply IH; [lia|auto|lia].
Qed.

Lemma scan_total fuel start p line :
  0 <= p <= end_ -> (end_ - p) mod sizeof C = 0 ->
  end_ - p < Z.of_nat fuel ->
  exists r, scan fuel C bytes end_ start p line = Done r.
Proof.
  revert start p line.
  induction fuel as [|fuel IH]; intros start p line Hp Hm Hf; [lia|].
  cbn [scan]. destruct (p =? end_) eqn:Ep; [eauto|]. apply Z.eqb_neq in Ep.
  pose proof (sizeof_pos C) as Hw.
  destruct (aligned_step p) as [H1 H2]; auto; [lia|].
  destruct (deref_in_bounds C bytes p) as [c Hc]; [lia|lia|].
  rewrite Hc. cbn [bind]. destruct (is_separator c) eqn:Es.
  - destruct (skip_separators_total (S fuel) p) as [q Hq]; auto.
    rewrite Hq. cbn [bind]. destruct (negb _); [eauto|].
    pose proof (skip_separators_Done _ _ _ Hq) as Hb.
    pose proof (skip_separators_advances _ _ _ _ Ep Hc Es Hq) as Hadv.
    apply skip_separators_within in Hq as [H3 H4]; auto; [|lia].
    apply IH; [lia|auto|lia].
  - apply IH; [lia|auto|lia].
Qed.

End Scan.

(** ** [next_line] *)

Lemma land_1 z : Z.land z 1 = z mod 2.
Proof. change 1 with (Z.ones 1) at 1. now rewrite Z.land_ones by lia. Qed.

Lemma usable_size_bounds C bytes :
  0 <= usable_size C bytes <= bytes_size bytes /\
  bytes_size bytes - 1 <= usable_size C bytes.
Proof.
  unfold usable_size. pose proof (Zle_0_nat (length bytes)) as H.
  fold (bytes_size bytes) in H.
  destruct (sizeof C =? 2); [|lia].
  destruct (Z.land (bytes_size bytes) 1 =? 1) eqn:E; [|lia].
  apply Z.eqb_eq in E. rewrite land_1 in E.
  assert (bytes_size bytes <> 0) by (intros Hz; rewrite Hz in E; discriminate).
  lia.
Qed.

Lemma usable_size_char bytes : usable_size char bytes = bytes_size bytes.
Proof. reflexivity. Qed.

Lemma usable_size_even bytes : usable_size wchar_t bytes mod 2 = 0.
Proof.
  unfold usable_size; simpl.
  destruct (Z.land (bytes_size bytes) 1 =? 1) eqn:E.
  - apply Z.eqb_eq in E. rewrite land_1 in E.
    rewrite Zminus_mod, E. reflexivity.
  - apply Z.eqb_neq in E. rewrite land_1 in E.
    pose proof (Z.mod_pos_bound (bytes_size bytes) 2). lia.
Qed.

Lemma next_line_Done C finished bytes byte_offset line byte_offset' :
  next_line C finished bytes byte_offset = Done (line, byte_offset') ->
  0 <= byte_offset /\
  next_line_result C finished bytes byte_offset line byte_offset'.
Proof.
  unfold next_line. fold (usable_size C bytes). intros H.
  pose proof (usable_size_bounds C bytes) as [Hu _].
  bind_inv H. destruct a as [p l].
  apply scan_Done in E; [|exact Hu|lia].
  destruct E as (H1 & H2 & [[H3 H4]|(H3 & H4 & H5 & H6)]).
  - rewrite (H4 eq_refl) in H. subst p.
    destruct finished; injection H as <- <-; split; try lia.
    + apply tail_flushed; auto; lia.
    + apply nothing_yet; auto; lia.
  - rewrite H3 in H.
    destruct (p <=? bytes_size bytes) eqn:Ea; [|discriminate].
    injection H as <- <-. split; [lia|].
    apply line_found; auto; lia.
Qed.

(** The only fault of [next_line] is a read outside the buffer: up to the
    first such read [MOB_ASSERT] holds whenever it is reached, and the fuel
    suffices.  What comes after such a read is in [next_line_in_behind]. *)
Lemma next_line_Fault C finished bytes byte_offset f :
  next_line C finished bytes byte_offset = Fault f -> f = out_of_bounds.
Proof.
  unfold next_line. fold (usable_size C bytes). intros H.
  pose proof (usable_size_bounds C bytes) as [Hu _].
  destruct (scan _ _ _ _ _ _ _) as [[p l]|f'] eqn:E; cbn [bind] in H.
  - destruct (empty l) eqn:El.
    + destruct finished; discriminate.
    + apply scan_Done in E; [|exact Hu|lia].
      destruct E as (_ & E & _).
      destruct (p <=? bytes_size bytes) eqn:Ea; [discriminate|].
      apply Z.leb_gt in Ea. lia.
  - injection H as <-.
    destruct (scan_Fault _ _ _ _ _ _ _ _ E) as [->| ->]; [reflexivity|].
    exfalso. revert E.
    apply scan_fuel; unfold bytes_size in *; lia.
Qed.

Lemma next_line_total C finished bytes byte_offset :
  well_placed C bytes byte_offset ->
  exists line byte_offset',
    next_line C finished bytes byte_offset = Done (line, byte_offset') /\
    (finished = false \/ C = char -> well_placed C bytes byte_offset').
Proof.
  intros [Hb Hm]. pose proof (usable_size_bounds C bytes) as [Hu Hu'].
  unfold next_line. fold (usable_size C bytes).
  destruct (scan_total C bytes (usable_size C bytes) Hu (S (length bytes))
              byte_offset byte_offset no_line) as [[p l] Hs]; auto.
  { unfold bytes_size in *. lia. }
  rewrite Hs. cbn [bind].
  pose proof (scan_Done _ _ _ Hu _ _ _ _ _ _ (Z.le_refl _) Hs) as (Hp & Hp' & _).
  apply scan_within in Hs as [H1 H2]; auto; [|lia].
  destruct (empty l); [destruct finished|].
  - do 2 eexists. split; [reflexivity|].
    intros [Hc|Hc]; [discriminate|subst C].
    unfold well_placed.
    change (usable_size char bytes) with (bytes_size bytes).
    rewrite Z.sub_diag. unfold bytes_size. split; [lia|reflexivity].
  - do 2 eexists. split; [reflexivity|]. intros _. split; assumption.
  - apply Z.leb_le in Hp'. rewrite Hp'. apply Z.leb_le in Hp'.
    do 2 eexists. split; [reflexivity|]. intros _. split; [lia|assumption].
Qed.

(** ** [next_utf8_lines] *)

Lemma slice_length bytes from n :
  0 <= from -> 0 <= n -> from + n <= bytes_size bytes ->
  length (slice bytes from n) = Z.to_nat n.
Proof.
  unfold slice, bytes_size. intros H0 H1 H2.
  rewrite length_firstn, length_skipn. lia.
Qed.

Lemma code_units_nonempty bs : (2 <= length bs)%nat -> code_units bs <> [].
Proof. destruct bs as [|a [|b' r]]; simpl; intros H; [lia|lia|discriminate]. Qed.

Lemma chars_of_Done bytes v s :
  chars_of bytes v = Done s -> 0 < count v -> s <> [].
Proof.
  unfold chars_of. destruct (_ && _) eqn:E; [|discriminate].
  intros [= <-] Hc. apply andb_prop in E as [E1 E2].
  apply Z.leb_le in E1, E2.
  intros Hs. apply (f_equal (@length byte)) in Hs.
  rewrite slice_length in Hs by lia. simpl in Hs. lia.
Qed.

Lemma wchars_of_Done bytes v ws :
  wchars_of bytes v = Done ws -> 0 < count v -> ws <> [].
Proof.
  unfold wchars_of. remember (2 * count v) as n eqn:Hn.
  destruct (_ && _) eqn:E; [|discriminate].
  intros [= <-] Hc. apply andb_prop in E as [E1 E2].
  apply Z.leb_le in E1, E2.
  apply code_units_nonempty. rewrite slice_length by lia. lia.
Qed.

Lemma chars_of_Fault bytes v f : chars_of bytes v = Fault f -> f = out_of_bounds.
Proof. unfold chars_of. destruct (_ && _); congruence. Qed.

Lemma wchars_of_Fault bytes v f : wchars_of bytes v = Fault f -> f = out_of_bounds.
Proof. unfold wchars_of. destruct (_ && _); congruence. Qed.

Section DecoderFacts.

Variable utf16_to_utf8 : list Z -> list byte.
Variable bytes_to_utf8 : encodings -> list byte -> list byte.

Local Abbreviation loop := (next_utf8_lines_loop utf16_to_utf8 bytes_to_utf8).
Local Abbreviation next_lines := (next_utf8_lines utf16_to_utf8 bytes_to_utf8).
Local Abbreviation conv := (converted utf16_to_utf8 bytes_to_utf8).
Local Abbreviation nonempty_view :=
  (from_nonempty_view utf16_to_utf8 bytes_to_utf8).

(** One turn of the [for (;;)] loop, the same for the three cases of the
    [switch]. *)
Lemma loop_S fuel finished b :
  loop (S fuel) finished b =
  ('(line, last) <- next_line (code_unit (e_ b)) finished (bytes_ b) (last_ b) ;;
   let b1 := set_last b last in
   if empty line then Done ([], b1)
   else
     s <- conv (e_ b) (bytes_ b) line ;;
     '(rest, b') <- loop fuel finished b1 ;;
     Done (s :: rest, b')).
Proof.
  cbn [next_utf8_lines_loop].
  destruct (e_ b) eqn:Ee; cbn [code_unit converted];
    (destruct (next_line _ finished (bytes_ b) (last_ b)) as [[line last]|f];
     cbn [bind]; [|reflexivity]);
    cbn [bytes_ set_last e_]; destruct (empty line); try reflexivity;
    try rewrite Ee.
  all: try (destruct (chars_of (bytes_ b) line); reflexivity).
  destruct (wchars_of (bytes_ b) line); reflexivity.
Qed.

Lemma conv_Done e bytes line s :
  conv e bytes line = Done s -> 0 < count line -> nonempty_view e s.
Proof.
  destruct e; cbn [converted from_nonempty_view]; intros H Hc.
  - eapply chars_of_Done; eauto.
  - bind_inv H. injection H as <-. eexists; split; eauto using chars_of_Done.
  - bind_inv H. injection H as <-. eexists; split; eauto using chars_of_Done.
  - bind_inv H. injection H as <-. eexists; split; eauto using wchars_of_Done.
  - eapply chars_of_Done; eauto.
Qed.

Lemma conv_Fault e bytes line f :
  conv e bytes line = Fault f -> f = out_of_bounds.
Proof.
  destruct e; cbn [converted];
    try apply chars_of_Fault;
    intros H.
  - destruct (chars_of bytes line) eqn:E; cbn [bind] in H; [discriminate|].
    injection H as <-. eapply chars_of_Fault; eauto.
  - destruct (chars_of bytes line) eqn:E; cbn [bind] in H; [discriminate|].
    injection H as <-. eapply chars_of_Fault; eauto.
  - destruct (wchars_of bytes line) eqn:E; cbn [bind] in H; [discriminate|].
    injection H as <-. eapply wchars_of_Fault; eauto.
Qed.

Lemma size_t_sub_bounds a b : 0 <= size_t_sub a b < size_t_max.
Proof. unfold size_t_sub. apply Z.mod_pos_bound. reflexivity. Qed.

Lemma size_t_sub_le a b : b <= a -> size_t_sub a b <= a - b.
Proof. unfold size_t_sub. intros H. apply Z.mod_le; [lia|reflexivity]. Qed.

Lemma size_t_sub_diag a : size_t_sub a a = 0.
Proof. unfold size_t_sub. now rewrite Z.sub_diag. Qed.

(** What a completed [next_utf8_lines] leaves behind. *)
Lemma loop_Done fuel finished b ls b' :
  loop fuel finished b = Done (ls, b') ->
  e_ b' = e_ b /\ bytes_ b' = bytes_ b /\
  0 <= last_ b <= last_ b' /\ last_ b' <= bytes_size (bytes_ b) /\
  Forall (nonempty_view (e_ b)) ls /\
  (finished = true -> last_ b' = bytes_size (bytes_ b)).
Proof.
  revert b ls b'.
  induction fuel as [|fuel IH]; intros b ls b' H; [discriminate|].
  rewrite loop_S in H. bind_inv H. destruct a as [line last].
  apply next_line_Done in E as [H0 Hr]. cbn zeta in H.
  pose proof (usable_size_bounds (code_unit (e_ b)) (bytes_ b)) as [Hu _].
  pose proof (sizeof_pos (code_unit (e_ b))) as Hw.
  destruct (empty line) eqn:El.
  - injection H as <- <-. cbn [set_last e_ bytes_ last_].
    destruct Hr as [Hf| |]; [congruence| |];
      repeat split; auto; try lia; congruence.
  - bind_inv H. bind_inv H. destruct a0 as [rest b2]. injection H as <- <-.
    apply IH in E0. cbn [set_last e_ bytes_ last_] in E0.
    destruct E0 as (I1 & I2 & I3 & I4 & I5 & I6).
    assert (0 < count line /\ last_ b <= last) as [Hc Hl].
    { destruct Hr as [| ? Hv |]; [nia| |congruence].
      subst line. unfold empty in El; cbn [count] in *.
      pose proof (size_t_sub_bounds (usable_size (code_unit (e_ b)) (bytes_ b))
                    (last_ b)).
      apply Z.eqb_neq in El. lia. }
    repeat split; auto; try lia.
    constructor; auto. eapply conv_Done; eauto.
Qed.

(** With the fuel [next_utf8_lines] supplies, the only fault is a read
    outside the buffer. *)
Lemma loop_Fault fuel finished b f :
  (0 < fuel)%nat ->
  bytes_size (bytes_ b) - Z.max 0 (last_ b) < Z.of_nat fuel ->
  loop fuel finished b = Fault f -> f = out_of_bounds.
Proof.
  revert b.
  induction fuel as [|fuel IH]; intros b Hf0 Hf H; [lia|].
  rewrite loop_S in H.
  destruct (next_line _ _ _ _) as [[line last]|f'] eqn:E; cbn [bind] in H.
  - cbn zeta in H. destruct (empty line) eqn:El; [discriminate|].
    destruct (conv _ _ _) as [s|f'] eqn:Ec; cbn [bind] in H.
    + destruct (loop fuel finished (set_last b last)) as [[rest b2]|f'] eqn:E2;
        cbn [bind] in H; [discriminate|].
      injection H as <-.
      apply next_line_Done in E as [H0 Hr].
      pose proof (usable_size_bounds (code_unit (e_ b)) (bytes_ b)) as [Hu _].
      pose proof (sizeof_pos (code_unit (e_ b))) as Hw.
      assert (last_ b < last /\ last <= bytes_size (bytes_ b)) as [Hl1 Hl2].
      { destruct Hr as [| ? Hv |]; [nia| |congruence].
        subst line. unfold empty in El; cbn [count] in *.
        apply Z.eqb_neq in El.
        destruct (Z.eq_dec (last_ b) (usable_size (code_unit (e_ b)) (bytes_ b)))
          as [Heq|Hne]; [|lia].
        rewrite Heq, size_t_sub_diag in El. lia. }
      apply IH in E2; auto; cbn [set_last bytes_ last_]; lia.
    + injection H as <-. eapply conv_Fault; eauto.
  - injection H as <-. eapply next_line_Fault; eauto.
Qed.

Lemma next_utf8_lines_Done finished b ls b' :
  next_lines finished b = Done (ls, b') ->
  e_ b' = e_ b /\ bytes_ b' = bytes_ b /\
  0 <= last_ b <= last_ b' /\ last_ b' <= bytes_size (bytes_ b) /\
  Forall (nonempty_view (e_ b)) ls /\
  (finished = true -> last_ b' = bytes_size (bytes_ b)).
Proof. apply loop_Done. Qed.

Lemma next_utf8_lines_Fault finished b f :
  next_lines finished b = Fault f -> f = out_of_bounds.
Proof.
  apply loop_Fault; [lia|]. unfold bytes_size. lia.
Qed.

Lemma conv_total e bytes line :
  0 <= data line -> 0 <= count line ->
  data line + sizeof (code_unit e) * count line <= bytes_size bytes ->
  exists s, conv e bytes line = Done s.
Proof.
  intros H0 H1 H2.
  assert (code_unit e = char ->
          (0 <=? data line) && (data line + count line <=? bytes_size bytes)
          = true) as Hchar.
  { intros He. rewrite He in H2. cbn [sizeof] in H2.
    apply andb_true_intro. split; apply Z.leb_le; lia. }
  destruct e; cbn [converted]; unfold chars_of, wchars_of;
    try (rewrite Hchar by reflexivity; cbn [bind]; eauto).
  cbn [code_unit sizeof] in H2.
  replace ((0 <=? data line) && (data line + 2 * count line <=? bytes_size bytes))
    with true; [cbn [bind]; eauto|].
  symmetry. apply andb_true_intro. split; apply Z.leb_le; lia.
Qed.

(** [next_utf8_lines] returns, having read inside the buffer only, when
    it scans bytes, or when it scans two-byte units and is not asked for the
    final flush. *)
Lemma loop_total fuel finished b :
  finished = false \/ code_unit (e_ b) = char ->
  well_placed (code_unit (e_ b)) (bytes_ b) (last_ b) ->
  bytes_size (bytes_ b) - last_ b < Z.of_nat fuel ->
  exists ls b',
    loop fuel finished b = Done (ls, b') /\
    well_placed (code_unit (e_ b')) (bytes_ b') (last_ b').
Proof.
  revert b. induction fuel as [|fuel IH]; intros b Hc Hwp Hf.
  { pose proof (usable_size_bounds (code_unit (e_ b)) (bytes_ b)).
    destruct Hwp as [? _]. lia. }
  rewrite loop_S.
  destruct (next_line_total _ finished _ _ Hwp) as (line & off' & Hn & Hwp').
  rewrite Hn. cbn [bind]. cbn zeta. specialize (Hwp' Hc).
  destruct (empty line) eqn:El; [eauto|].
  apply next_line_Done in Hn as [H0 Hr].
  pose proof (usable_size_bounds (code_unit (e_ b)) (bytes_ b)) as [Hu _].
  pose proof (sizeof_pos (code_unit (e_ b))) as Hw.
  assert (exists s, conv (e_ b) (bytes_ b) line = Done s) as [s Hs].
  { destruct Hr as [| Hfin Hv ? ?|]; [apply conv_total; nia| |congruence].
    destruct Hc as [Hc|Hc]; [congruence|].
    subst line. apply conv_total; cbn [data count]; rewrite ?Hc in *.
    - lia.
    - apply size_t_sub_bounds.
    - pose proof (size_t_sub_le (usable_size char (bytes_ b)) (last_ b)).
      cbn [sizeof]. lia. }
  rewrite Hs. cbn [bind].
  assert (last_ b < off') as Hlt.
  { destruct Hr as [| ? Hv ? ?|]; [nia| |congruence].
    subst line off'. unfold empty in El; cbn [count] in El.
    apply Z.eqb_neq in El.
    destruct (Z.eq_dec (last_ b) (usable_size (code_unit (e_ b)) (bytes_ b)))
      as [Heq|Hne]; [|lia].
    rewrite Heq, size_t_sub_diag in El. lia. }
  destruct (IH (set_last b off')) as (rest & b' & Hl & Hwp2); auto.
  { cbn [set_last bytes_ last_]. lia. }
  rewrite Hl. cbn [bind]. eauto.
Qed.

Lemma next_utf8_lines_total finished b :
  finished = false \/ code_unit (e_ b) = char ->
  well_placed (code_unit (e_ b)) (bytes_ b) (last_ b) ->
  exists ls b',
    next_lines finished b = Done (ls, b') /\
    well_placed (code_unit (e_ b')) (bytes_ b') (last_ b').
Proof.
  intros Hc Hwp. apply loop_total; auto.
  destruct Hwp as [? _]. unfold bytes_size. lia.
Qed.

End DecoderFacts.

(** ** Bytes before the offset are not read *)

Section Prefix.

Variable utf16_to_utf8 : list Z -> list byte.
Variable bytes_to_utf8 : encodings -> list byte -> list byte.

(** Two buffers that differ before the offset [length pre] only. *)
Variables pre pre' rest : list byte.
Hypothesis same_length : length pre = length pre'.

Local Abbreviation off := (Z.of_nat (length pre)).
Local Abbreviation loop := (next_utf8_lines_loop utf16_to_utf8 bytes_to_utf8).
Local Abbreviation conv := (converted utf16_to_utf8 bytes_to_utf8).

Lemma bytes_size_agree : bytes_size (pre ++ rest) = bytes_size (pre' ++ rest).
Proof. unfold bytes_size. rewrite !length_app. lia. Qed.

Lemma byte_at_agree i :
  off <= i -> byte_at (pre ++ rest) i = byte_at (pre' ++ rest) i.
Proof.
  intros Hi. unfold byte_at. destruct (0 <=? i); [|reflexivity].
  rewrite !nth_error_app2 by lia. now rewrite same_length.
Qed.

Lemma deref_agree C p :
  off <= p -> deref C (pre ++ rest) p = deref C (pre' ++ rest) p.
Proof.
  intros Hp. destruct C; cbn [deref].
  - now apply byte_at_agree.
  - rewrite (byte_at_agree p), (byte_at_agree (p + 1)) by lia. reflexivity.
Qed.

Lemma skip_separators_agree fuel C end_ p :
  off <= p ->
  skip_separators fuel C (pre ++ rest) end_ p =
  skip_separators fuel C (pre' ++ rest) end_ p.
Proof.
  revert p. induction fuel as [|fuel IH]; simpl; intros p Hp; [reflexivity|].
  destruct (p =? end_); [reflexivity|].
  rewrite deref_agree by exact Hp.
  destruct (deref C (pre' ++ rest) p); cbn [bind]; [|reflexivity].
  destruct (is_separator a); [|reflexivity].
  apply IH. pose proof (sizeof_pos C). lia.
Qed.

Lemma scan_agree fuel C end_ start p line :
  off <= p ->
  scan fuel C (pre ++ rest) end_ start p line =
  scan fuel C (pre' ++ rest) end_ start p line.
Proof.
  revert start p line.
  induction fuel as [|fuel IH]; intros start p line Hp; [reflexivity|].
  cbn [scan]. destruct (p =? end_); [reflexivity|].
  rewrite deref_agree by exact Hp.
  destruct (deref C (pre' ++ rest) p) as [c|] eqn:Ec; cbn [bind]; [|reflexivity].
  pose proof (sizeof_pos C).
  destruct (is_separator c).
  - rewrite skip_separators_agree by exact Hp.
    destruct (skip_separators (S fuel) C (pre' ++ rest) end_ p) as [q|] eqn:Eq;
      cbn [bind]; [|reflexivity].
    destruct (negb _); [reflexivity|].
    apply IH.
    assert (p <= q); [|lia].
    revert Eq. clear. revert p.
    induction (S fuel) as [|n IHn]; simpl; intros p Hq; [discriminate|].
    destruct (p =? end_); [injection Hq as <-; lia|].
    bind_inv Hq. destruct (is_separator a); [|injection Hq as <-; lia].
    apply IHn in Hq. pose proof (sizeof_pos C). lia.
  - apply IH. lia.
Qed.

Lemma next_line_agree C finished byte_offset :
  off <= byte_offset ->
  next_line C finished (pre ++ rest) byte_offset =
  next_line C finished (pre' ++ rest) byte_offset.
Proof.
  intros Hp. unfold next_line.
  rewrite <- bytes_size_agree.
  rewrite (scan_agree _ _ _ _ _ _ Hp).
  rewrite !length_app, same_length. reflexivity.
Qed.

Lemma slice_agree from n :
  off <= from -> slice (pre ++ rest) from n = slice (pre' ++ rest) from n.
Proof.
  intros Hf. unfold slice. f_equal.
  rewrite !skipn_app.
  rewrite (skipn_all2 pre), (skipn_all2 pre') by lia.
  now rewrite same_length.
Qed.

Lemma conv_agree e line :
  off <= data line ->
  conv e (pre ++ rest) line = conv e (pre' ++ rest) line.
Proof.
  intros Hd. destruct e; cbn [converted]; unfold chars_of, wchars_of;
    rewrite <- bytes_size_agree; rewrite (slice_agree _ _ Hd); reflexivity.
Qed.

Lemma loop_agree fuel finished e byte_offset :
  off <= byte_offset ->
  observed (loop fuel finished (mk_encoded_buffer e (pre ++ rest) byte_offset)) =
  observed (loop fuel finished (mk_encoded_buffer e (pre' ++ rest) byte_offset)).
Proof.
  revert byte_offset.
  induction fuel as [|fuel IH]; intros byte_offset Hp; [reflexivity|].
  rewrite !loop_S. cbn [e_ bytes_ last_].
  rewrite next_line_agree by exact Hp.
  destruct (next_line _ finished (pre' ++ rest) byte_offset)
    as [[line last]|] eqn:En; cbn [bind]; [|reflexivity].
  cbn zeta. destruct (empty line) eqn:El; [reflexivity|].
  apply next_line_Done in En as [H0 Hr].
  assert (byte_offset <= data line /\ byte_offset <= last) as [Hd Hl].
  { destruct Hr as [| ? Hv ? ?|]; [|subst line; cbn [data]|congruence].
    - pose proof (sizeof_pos (code_unit e)). nia.
    - pose proof (usable_size_bounds (code_unit e) (pre' ++ rest)). lia. }
  rewrite conv_agree by lia.
  destruct (conv e (pre' ++ rest) line); cbn [bind]; [|reflexivity].
  unfold set_last. cbn [e_ bytes_]. specialize (IH last ltac:(lia)).
  unfold observed in IH.
  destruct (loop fuel finished {| e_ := e; bytes_ := pre ++ rest; last_ := last |})
    as [[r1 b1]|]; destruct (loop fuel finished
       {| e_ := e; bytes_ := pre' ++ rest; last_ := last |}) as [[r2 b2]|];
    unfold observed; cbn [bind] in *; congruence.
Qed.

Lemma next_utf8_lines_agree finished e byte_offset :
  off <= byte_offset ->
  observed (next_utf8_lines utf16_to_utf8 bytes_to_utf8 finished
              (mk_encoded_buffer e (pre ++ rest) byte_offset)) =
  observed (next_utf8_lines utf16_to_utf8 bytes_to_utf8 finished
              (mk_encoded_buffer e (pre' ++ rest) byte_offset)).
Proof.
  intros Hp. unfold next_utf8_lines. cbn [bytes_].
  rewrite !length_app, same_length. now apply loop_agree.
Qed.

End Prefix.

(** ** Sequences of calls *)

Section RunFacts.

Variable utf16_to_utf8 : list Z -> list byte.
Variable bytes_to_utf8 : encodings -> list byte -> list byte.

Local Abbreviation next_lines := (next_utf8_lines utf16_to_utf8 bytes_to_utf8).
Local Abbreviation run_calls := (run utf16_to_utf8 bytes_to_utf8).
Local Abbreviation nonempty_view :=
  (from_nonempty_view utf16_to_utf8 bytes_to_utf8).

Lemma do_call_Done b c ls b' :
  do_call utf16_to_utf8 bytes_to_utf8 b c = Done (ls, b') ->
  e_ b' = e_ b /\ last_ b <= last_ b' /\
  (length (bytes_ b) <= length (bytes_ b'))%nat /\
  (0 <= last_ b <= bytes_size (bytes_ b) ->
   0 <= last_ b' <= bytes_size (bytes_ b')) /\
  Forall (nonempty_view (e_ b)) ls.
Proof.
  destruct c as [bytes|finished]; cbn [do_call]; intros H.
  - injection H as <- <-. cbn [add e_ bytes_ last_]. unfold bytes_size.
    rewrite length_app. repeat split; auto; lia.
  - apply next_utf8_lines_Done in H as (H1 & H2 & H3 & H4 & H5 & _).
    rewrite H2. repeat split; auto; lia.
Qed.

Lemma run_Done b cs ls b' :
  run_calls b cs = Done (ls, b') ->
  e_ b' = e_ b /\ last_ b <= last_ b' /\
  (0 <= last_ b <= bytes_size (bytes_ b) ->
   0 <= last_ b' <= bytes_size (bytes_ b')) /\
  Forall (nonempty_view (e_ b)) ls.
Proof.
  revert b ls. induction cs as [|c cs IH]; intros b ls H.
  - injection H as <- <-. repeat split; auto; lia.
  - cbn [run] in H. bind_inv H. destruct a as [l1 b1].
    bind_inv H. destruct a as [l2 b2]. injection H as <- <-.
    apply do_call_Done in E as (H1 & H2 & _ & H4 & H5).
    apply IH in E0 as (I1 & I2 & I4 & I5).
    repeat split; try congruence; try lia; auto.
    apply Forall_app. split; auto. now rewrite <- H1.
Qed.

Lemma usable_size_app C bytes more :
  usable_size C bytes <= usable_size C (bytes ++ more).
Proof.
  pose proof (usable_size_bounds C bytes) as [H1 _].
  pose proof (usable_size_bounds C (bytes ++ more)) as [_ H2].
  assert (bytes_size bytes <= bytes_size (bytes ++ more)) as Hle.
  { unfold bytes_size. rewrite length_app. lia. }
  destruct C.
  - change (usable_size char bytes) with (bytes_size bytes).
    change (usable_size char (bytes ++ more)) with (bytes_size (bytes ++ more)).
    exact Hle.
  - pose proof (usable_size_even bytes).
    pose proof (usable_size_even (bytes ++ more)).
    Z.div_mod_to_equations. lia.
Qed.

Lemma well_placed_add C bytes more byte_offset :
  well_placed C bytes byte_offset -> well_placed C (bytes ++ more) byte_offset.
Proof.
  intros [H1 H2]. pose proof (usable_size_app C bytes more) as Hle.
  split; [lia|].
  destruct C; cbn [sizeof] in *.
  - apply Z.mod_1_r.
  - pose proof (usable_size_even bytes).
    pose proof (usable_size_even (bytes ++ more)).
    Z.div_mod_to_equations. lia.
Qed.

(** A run of calls returns, having read inside the buffer only, when the
    scan is by bytes, or when the final flush is never asked for. *)
Lemma run_total b cs :
  code_unit (e_ b) = char \/ ~ In (call_next_utf8_lines true) cs ->
  well_placed (code_unit (e_ b)) (bytes_ b) (last_ b) ->
  exists ls b',
    run_calls b cs = Done (ls, b') /\
    well_placed (code_unit (e_ b')) (bytes_ b') (last_ b').
Proof.
  revert b. induction cs as [|c cs IH]; intros b Hc Hwp.
  - cbn. eauto.
  - cbn [run].
    assert (exists l1 b1,
               do_call utf16_to_utf8 bytes_to_utf8 b c = Done (l1, b1) /\
               e_ b1 = e_ b /\
               well_placed (code_unit (e_ b1)) (bytes_ b1) (last_ b1))
      as (l1 & b1 & Hd & He & Hwp1).
    { destruct c as [bytes|finished]; cbn [do_call].
      - do 2 eexists. split; [reflexivity|]. split; [reflexivity|].
        cbn [add e_ bytes_ last_]. now apply well_placed_add.
      - destruct (next_utf8_lines_total utf16_to_utf8 bytes_to_utf8 finished b)
          as (l1 & b1 & H1 & H2); auto.
        { destruct Hc as [Hc|Hc]; [now right|left].
          destruct finished; [|reflexivity].
          exfalso. apply Hc. now left. }
        exists l1, b1. split; [exact H1|]. split; [|exact H2].
        now apply next_utf8_lines_Done in H1 as (? & _). }
    rewrite Hd. cbn [bind].
    destruct (IH b1) as (l2 & b2 & Hr & Hwp2); auto.
    { rewrite He. destruct Hc as [Hc|Hc]; [now left|right].
      intros Hin. apply Hc. now right. }
    rewrite Hr. cbn [bind]. eauto.
Qed.

Lemma well_placed_new C bytes : well_placed C bytes 0.
Proof.
  pose proof (usable_size_bounds C bytes). split; [lia|].
  rewrite Z.sub_0_r. destruct C; cbn [sizeof].
  - apply Z.mod_1_r.
  - apply usable_size_even.
Qed.

(** Once the offset is at the end of the buffer, and the buffer holds
    whole code units only, a call finds nothing and changes nothing. *)
Lemma loop_at_end fuel finished b :
  last_ b = bytes_size (bytes_ b) ->
  usable_size (code_unit (e_ b)) (bytes_ b) = bytes_size (bytes_ b) ->
  next_utf8_lines_loop utf16_to_utf8 bytes_to_utf8 (S fuel) finished b
  = Done ([], b).
Proof.
  intros Hl Hu. rewrite loop_S.
  unfold next_line. fold (usable_size (code_unit (e_ b)) (bytes_ b)).
  rewrite Hu, Hl. cbn [scan]. rewrite Z.eqb_refl. cbn [bind].
  change (empty no_line) with true. cbv iota.
  destruct finished; cbn [bind]; cbn zeta.
  - unfold empty; cbn [count]. rewrite size_t_sub_diag. cbn.
    rewrite <- Hl. destruct b; reflexivity.
  - change (empty no_line) with true. cbv iota.
    rewrite <- Hl. destruct b; reflexivity.
Qed.

Lemma next_utf8_lines_at_end finished b :
  last_ b = bytes_size (bytes_ b) ->
  usable_size (code_unit (e_ b)) (bytes_ b) = bytes_size (bytes_ b) ->
  next_lines finished b = Done ([], b).
Proof. apply loop_at_end. Qed.

(** Where a call finds nothing and changes nothing, so do any number of
    calls. *)
Lemma run_at_rest b cs :
  (forall finished, next_lines finished b = Done ([], b)) ->
  Forall is_next_utf8_lines cs ->
  run_calls b cs = Done ([], b).
Proof.
  intros Hb. induction 1 as [|c cs [finished ->] _ IH]; [reflexivity|].
  cbn [run do_call]. rewrite Hb. cbn [bind]. rewrite IH. reflexivity.
Qed.

(** For the encodings scanned by bytes, and for UTF-16 text of even
    length, the final flush leaves the decoder at rest. *)
Lemma flushed_is_at_rest b ls b' finished :
  usable_size (code_unit (e_ b)) (bytes_ b) = bytes_size (bytes_ b) ->
  next_lines true b = Done (ls, b') ->
  next_lines finished b' = Done ([], b').
Proof.
  intros Hu H. apply next_utf8_lines_Done in H as (H1 & H2 & _ & _ & _ & H6).
  apply next_utf8_lines_at_end; rewrite ?H1, ?H2; auto.
Qed.

(** *** A stream of separators only *)

Lemma byte_at_separator bytes i c :
  Forall separator_byte bytes -> byte_at bytes i = Done c ->
  is_separator c = true.
Proof.
  intros Hall. unfold byte_at. destruct (0 <=? i); [|discriminate].
  destruct (nth_error bytes (Z.to_nat i)) as [b|] eqn:E; [|discriminate].
  intros [= <-]. apply nth_error_In in E.
  rewrite Forall_forall in Hall. now apply Hall.
Qed.

Lemma skip_separators_only fuel bytes p :
  Forall separator_byte bytes -> 0 <= p <= bytes_size bytes ->
  bytes_size bytes - p < Z.of_nat fuel ->
  skip_separators fuel char bytes (bytes_size bytes) p = Done (bytes_size bytes).
Proof.
  intros Hall. revert p.
  induction fuel as [|fuel IH]; simpl; intros p Hp Hf; [lia|].
  destruct (p =? bytes_size bytes) eqn:Ep.
  - apply Z.eqb_eq in Ep. now subst.
  - apply Z.eqb_neq in Ep.
    destruct (byte_at_in_bounds bytes p) as [c Hc]; [lia|].
    rewrite Hc. cbn [bind]. rewrite (byte_at_separator _ _ _ Hall Hc).
    apply IH; lia.
Qed.

Lemma next_line_separators_only finished bytes :
  Forall separator_byte bytes -> bytes <> [] ->
  next_line char finished bytes 0 =
  Done (if finished
        then mk_view 0 (size_t_sub (bytes_size bytes) 0)
        else mk_view 0 0,
        if finished then bytes_size bytes else 0).
Proof.
  intros Hall Hne. unfold next_line. cbn [sizeof]. cbv beta zeta.
  change (1 =? 2) with false. cbv iota.
  assert (0 < bytes_size bytes) as Hpos.
  { unfold bytes_size. destruct bytes; [congruence|cbn [length]; lia]. }
  assert (scan (S (length bytes)) char bytes (bytes_size bytes) 0 0 no_line
          = Done (bytes_size bytes, mk_view 0 0)) as ->.
  { cbn [scan].
    destruct (0 =? bytes_size bytes) eqn:E0; [apply Z.eqb_eq in E0; lia|].
    destruct (byte_at_in_bounds bytes 0) as [c Hc]; [lia|].
    cbn [deref]. rewrite Hc. cbn [bind].
    rewrite (byte_at_separator _ _ _ Hall Hc).
    rewrite skip_separators_only; auto; [|lia|unfold bytes_size; lia].
    cbn [bind]. change (negb (empty (mk_view 0 ((0 - 0) / sizeof char))))
      with false. cbv iota.
    destruct (length bytes) eqn:El; [unfold bytes_size in Hpos; lia|].
    cbn [scan]. now rewrite Z.eqb_refl. }
  cbn [bind]. change (empty (mk_view 0 0)) with true. cbv iota.
  destruct finished; reflexivity.
Qed.

(** While the stream is open nothing is handed to [f]. *)
Lemma separators_only_open e bytes :
  code_unit e = char -> Forall separator_byte bytes ->
  next_lines false (new_buffer e bytes) = Done ([], new_buffer e bytes).
Proof.
  intros He Hall. destruct bytes as [|b0 bs].
  - apply next_utf8_lines_at_end; cbn [new_buffer e_ bytes_ last_];
      [reflexivity|now rewrite He].
  - unfold next_utf8_lines. rewrite loop_S.
    cbn [new_buffer e_ bytes_ last_]. rewrite He.
    rewrite next_line_separators_only by (auto; discriminate).
    reflexivity.
Qed.

(** The final flush hands the separators over as a line. *)
Lemma separators_only_closed e bytes :
  code_unit e = char -> Forall separator_byte bytes -> bytes <> [] ->
  bytes_size bytes < size_t_max ->
  next_lines true (new_buffer e bytes)
  = Done ([in_utf8 bytes_to_utf8 e bytes],
          mk_encoded_buffer e bytes (bytes_size bytes)).
Proof.
  intros He Hall Hne Hmax.
  assert (0 < bytes_size bytes) as Hpos.
  { unfold bytes_size. destruct bytes; [congruence|cbn [length]; lia]. }
  unfold next_utf8_lines. rewrite loop_S.
  cbn [new_buffer e_ bytes_ last_]. rewrite He.
  rewrite next_line_separators_only by auto. cbn [bind]. cbv zeta.
  assert (size_t_sub (bytes_size bytes) 0 = bytes_size bytes) as Hc.
  { unfold size_t_sub. rewrite Z.sub_0_r. apply Z.mod_small. lia. }
  unfold empty. cbn [count]. rewrite Hc.
  destruct (bytes_size bytes =? 0) eqn:E0; [apply Z.eqb_eq in E0; lia|].
  unfold set_last. cbn [e_ bytes_ last_].
  assert (chars_of bytes (mk_view 0 (bytes_size bytes)) = Done bytes) as Hch.
  { unfold chars_of. cbn [data count].
    rewrite Z.leb_refl. cbn [Z.add]. rewrite Z.leb_refl. cbn [andb].
    unfold slice, bytes_size. rewrite Nat2Z.id. cbn [Z.to_nat skipn].
    now rewrite firstn_all. }
  assert (converted utf16_to_utf8 bytes_to_utf8 e bytes
            (mk_view 0 (bytes_size bytes))
          = Done (in_utf8 bytes_to_utf8 e bytes)) as ->.
  { destruct e; try discriminate; cbn [converted in_utf8]; rewrite Hch;
      reflexivity. }
  cbn [bind].
  destruct (length bytes) eqn:El; [unfold bytes_size in Hpos; lia|].
  rewrite loop_at_end; [reflexivity|reflexivity|].
  unfold new_buffer. cbn [e_ bytes_]. now rewrite He.
Qed.

(** *** UTF-16 *)

(** As long as the final flush is not asked for, the decoder reads inside
    the buffer only, and the offset stays on a code unit at or before the
    last whole one: a dangling byte is left alone. *)
Lemma utf16_scanning_in_bounds bytes0 cs :
  ~ In (call_next_utf8_lines true) cs ->
  exists ls b,
    run_calls (new_buffer utf16 bytes0) cs = Done (ls, b) /\
    0 <= last_ b <= usable_size wchar_t (bytes_ b) /\
    last_ b mod 2 = 0.
Proof.
  intros Hcs.
  destruct (run_total (new_buffer utf16 bytes0) cs) as (ls & b & Hr & Hwp).
  - now right.
  - apply well_placed_new.
  - exists ls, b. split; [exact Hr|].
    apply run_Done in Hr as (He & _). cbn [new_buffer e_] in He.
    rewrite He in Hwp. cbn [code_unit] in Hwp. destruct Hwp as [H1 H2].
    split; [exact H1|].
    pose proof (usable_size_even (bytes_ b)). cbn [sizeof] in H2.
    Z.div_mod_to_equations. lia.
Qed.

(** The final flush counts the bytes of the tail and builds a view of as
    many code units: with any unterminated text left, what it hands to
    the conversion reaches outside the buffer. *)
Lemma utf16_unterminated_tail_out_of_bounds b :
  e_ b = utf16 ->
  bytes_size (bytes_ b) < size_t_max ->
  next_lines false b = Done ([], b) ->
  last_ b < usable_size wchar_t (bytes_ b) ->
  next_lines true b = Fault out_of_bounds.
Proof.
  intros He Hmax Hopen Htail.
  pose proof (usable_size_bounds wchar_t (bytes_ b)) as [Hu Hu'].
  unfold next_utf8_lines in *. rewrite loop_S in *. rewrite He in *.
  cbn [code_unit] in *. unfold next_line in *.
  fold (usable_size wchar_t (bytes_ b)) in *.
  destruct (scan _ _ _ _ _ _ _) as [[p l]|] eqn:Es; cbn [bind] in *;
    [|discriminate].
  destruct (empty l) eqn:El.
  - cbn [bind]. cbv zeta.
    pose proof (scan_aligned _ _ _ _ _ _ _ _ _ Es) as Hal.
    apply scan_Done in Es as (Hp & _ & Hcase); [|exact Hu|lia].
    assert (p = usable_size wchar_t (bytes_ b)) as ->.
    { destruct Hcase as [[? _]|[? _]]; [assumption|congruence]. }
    assert (size_t_sub (usable_size wchar_t (bytes_ b)) (last_ b)
            = usable_size wchar_t (bytes_ b) - last_ b) as Hc.
    { unfold size_t_sub. apply Z.mod_small. lia. }
    unfold empty. cbn [count]. rewrite Hc.
    destruct (_ =? 0) eqn:E0; [apply Z.eqb_eq in E0; lia|].
    cbn [converted]. unfold wchars_of. cbn [data count set_last bytes_].
    replace (last_ b + 2 * (usable_size wchar_t (bytes_ b) - last_ b)
             <=? bytes_size (bytes_ b)) with false; [now rewrite andb_false_r|].
    symmetry. apply Z.leb_gt.
    pose proof (usable_size_even (bytes_ b)). cbn [sizeof] in Hal.
    Z.div_mod_to_equations. lia.
  - exfalso. destruct (p <=? bytes_size (bytes_ b)); [|discriminate].
    cbn [bind] in Hopen. cbv zeta in Hopen. rewrite El in Hopen.
    destruct (converted _ _ _ _ _); cbn [bind] in Hopen; [|discriminate].
    destruct (next_utf8_lines_loop _ _ _ _ _) as [[? ?]|]; discriminate.
Qed.

End RunFacts.

(** ** The scan by bytes, against the lines of the list *)

Lemma skipn_nth_error (A : Type) (l : list A) n x :
  nth_error l n = Some x -> skipn n l = x :: skipn (S n) l.
Proof.
  revert l. induction n as [|n IH]; intros [|y l] H; try discriminate.
  - injection H as ->. reflexivity.
  - cbn [skipn]. now apply IH.
Qed.

Lemma firstn_snoc (A : Type) (l : list A) n x :
  nth_error l n = Some x -> firstn (S n) l = firstn n l ++ [x].
Proof.
  revert l. induction n as [|n IH]; intros [|y l] H; try discriminate.
  - injection H as ->. reflexivity.
  - cbn [firstn app]. f_equal. now apply IH.
Qed.

Section ByteScan.

Variable bytes : list byte.

Local Abbreviation len := (bytes_size bytes).
Local Abbreviation suffix p := (skipn (Z.to_nat p) bytes).

Lemma suffix_cons p :
  0 <= p < len ->
  exists b,
    suffix p = b :: suffix (p + 1) /\
    byte_at bytes p = Done (Z.of_N (Byte.to_N b)) /\
    nth_error bytes (Z.to_nat p) = Some b.
Proof.
  unfold bytes_size. intros Hp.
  destruct (nth_error bytes (Z.to_nat p)) as [b|] eqn:E.
  - exists b. repeat split.
    + replace (Z.to_nat (p + 1)) with (S (Z.to_nat p)) by lia.
      now apply skipn_nth_error.
    + unfold byte_at. rewrite E.
      destruct (0 <=? p) eqn:E0; [reflexivity|apply Z.leb_gt in E0; lia].
  - apply nth_error_None in E. lia.
Qed.

Lemma suffix_length p :
  0 <= p <= len -> Z.of_nat (length (suffix p)) = len - p.
Proof. unfold bytes_size. intros Hp. rewrite length_skipn. lia. Qed.

Lemma suffix_end : suffix len = [].
Proof. unfold bytes_size. rewrite Nat2Z.id. apply skipn_all. Qed.

Lemma suffix_drop_separators p :
  0 <= p <= len ->
  suffix (len - Z.of_nat (length (drop_separators (suffix p))))
  = drop_separators (suffix p).
Proof.
  intros Hp. pose proof (suffix_length p Hp) as Hl.
  pose proof (drop_separators_length (suffix p)) as Hd.
  rewrite <- (drop_separators_suffix (suffix p)) at 2.
  rewrite skipn_skipn. f_equal. unfold bytes_size in *. lia.
Qed.

Lemma skip_separators_list fuel p :
  0 <= p <= len -> len - p < Z.of_nat fuel ->
  skip_separators fuel char bytes len p
  = Done (len - Z.of_nat (length (drop_separators (suffix p)))).
Proof.
  revert p. induction fuel as [|fuel IH]; simpl; intros p Hp Hf; [lia|].
  destruct (p =? len) eqn:Ep.
  - apply Z.eqb_eq in Ep. subst p. rewrite suffix_end. cbn. f_equal. lia.
  - apply Z.eqb_neq in Ep.
    destruct (suffix_cons p) as (b & Hs & Hb & _); [lia|].
    rewrite Hb, Hs. cbn [bind drop_separators]. unfold is_separator_byte.
    destruct (is_separator _).
    + apply IH; lia.
    + f_equal. rewrite <- Hs. pose proof (suffix_length p). lia.
Qed.

(** The outer loop finds the first terminated line of what is left, if
    there is one. *)
Lemma scan_list fuel start p cur line :
  0 <= start <= p -> p <= len -> len - p < Z.of_nat fuel ->
  empty line = true ->
  rev cur = slice bytes start (p - start) ->
  match first_line cur (suffix p) with
  | None =>
      exists line',
        scan fuel char bytes len start p line = Done (len, line') /\
        empty line' = true
  | Some (l, u) =>
      exists v,
        scan fuel char bytes len start p line
        = Done (len - Z.of_nat (length u), v) /\
        empty v = false /\ chars_of bytes v = Done l
  end.
Proof.
  revert start p cur line.
  induction fuel as [|fuel IH]; intros start p cur line Hs Hp Hf He Hc; [lia|].
  cbn [scan]. destruct (p =? len) eqn:Ep.
  - apply Z.eqb_eq in Ep. subst p. rewrite suffix_end. cbn [first_line]. eauto.
  - apply Z.eqb_neq in Ep.
    destruct (suffix_cons p) as (b & Hsuf & Hb & Hn); [lia|].
    assert (Z.of_nat (length cur) = p - start) as Hlen.
    { rewrite <- length_rev, Hc, slice_length by lia. lia. }
    rewrite Hsuf. cbn [deref first_line]. rewrite Hb. cbn [bind].
    unfold is_separator_byte. destruct (is_separator _) eqn:Esep.
    + rewrite skip_separators_list by lia. cbn [bind].
      rewrite Hsuf. cbn [drop_separators]. unfold is_separator_byte.
      rewrite Esep. cbn [sizeof]. rewrite Z.div_1_r.
      pose proof (drop_separators_length (suffix (p + 1))) as Hd.
      pose proof (suffix_length (p + 1)) as Hl.
      destruct cur as [|c cur'].
      * cbn [length] in Hlen. assert (p = start) by lia. subst start.
        rewrite Z.sub_diag. change (negb (empty (mk_view p 0))) with false.
        cbv iota.
        specialize (IH (len - Z.of_nat (length (drop_separators (suffix (p + 1)))))
                       (len - Z.of_nat (length (drop_separators (suffix (p + 1)))))
                       [] (mk_view p 0)).
        rewrite suffix_drop_separators, first_line_drop_separators in IH by lia.
        apply IH; try lia; try reflexivity.
        rewrite Z.sub_diag. reflexivity.
      * cbn [length] in Hlen.
        unfold empty. cbn [count].
        destruct (p - start =? 0) eqn:E0; [apply Z.eqb_eq in E0; lia|].
        cbn [negb]. eexists. split; [reflexivity|]. split.
        -- unfold empty. cbn [count]. exact E0.
        -- unfold chars_of. cbn [data count].
           replace ((0 <=? start) && (start + (p - start) <=? len)) with true.
           ++ now rewrite <- Hc.
           ++ symmetry. apply andb_true_intro. split; apply Z.leb_le; lia.
    + cbn [sizeof]. apply IH; try lia; auto.
      cbn [rev]. rewrite Hc. unfold slice.
      replace (Z.to_nat (p + 1 - start)) with (S (Z.to_nat (p - start))) by lia.
      symmetry. apply firstn_snoc.
      rewrite nth_error_skipn.
      replace (Z.to_nat start + Z.to_nat (p - start))%nat with (Z.to_nat p)
        by lia.
      exact Hn.
Qed.

Lemma next_line_list finished byte_offset :
  0 <= byte_offset <= len ->
  match first_line [] (suffix byte_offset) with
  | Some (l, u) =>
      exists v,
        next_line char finished bytes byte_offset
        = Done (v, len - Z.of_nat (length u)) /\
        empty v = false /\ chars_of bytes v = Done l
  | None =>
      if finished
      then next_line char finished bytes byte_offset
           = Done (mk_view byte_offset (size_t_sub len byte_offset), len)
      else exists line,
             next_line char finished bytes byte_offset
             = Done (line, byte_offset) /\ empty line = true
  end.
Proof.
  intros Hb.
  pose proof (scan_list (S (length bytes)) byte_offset byte_offset [] no_line)
    as Hs.
  unfold next_line. cbn [sizeof]. change (1 =? 2) with false. cbv iota zeta.
  destruct (first_line [] (suffix byte_offset)) as [[l u]|] eqn:Ef.
  - destruct Hs as (v & Hs & Hv & Hc); try lia; try reflexivity.
    { unfold bytes_size. lia. }
    { rewrite Z.sub_diag. reflexivity. }
    exists v. rewrite Hs. cbn [bind]. rewrite Hv.
    destruct (_ <=? len) eqn:El; [auto|]. apply Z.leb_gt in El. lia.
  - destruct Hs as (line' & Hs & Hv); try lia; try reflexivity.
    { unfold bytes_size. lia. }
    { rewrite Z.sub_diag. reflexivity. }
    rewrite Hs. cbn [bind]. rewrite Hv. destruct finished; eauto.
Qed.

End ByteScan.

Section ByteLines.

Variable utf16_to_utf8 : list Z -> list byte.
Variable bytes_to_utf8 : encodings -> list byte -> list byte.

Local Abbreviation loop := (next_utf8_lines_loop utf16_to_utf8 bytes_to_utf8).
Local Abbreviation next_lines := (next_utf8_lines utf16_to_utf8 bytes_to_utf8).
Local Abbreviation conv := (converted utf16_to_utf8 bytes_to_utf8).
Local Abbreviation utf8_of := (in_utf8 bytes_to_utf8).
Local Abbreviation last_line := (final_line bytes_to_utf8).
Local Abbreviation run_calls := (run utf16_to_utf8 bytes_to_utf8).

Lemma conv_char e bytes v l :
  code_unit e = char -> chars_of bytes v = Done l ->
  conv e bytes v = Done (utf8_of e l).
Proof.
  intros He Hc. destruct e; try discriminate; cbn [converted in_utf8];
    rewrite Hc; reflexivity.
Qed.

(** [next_utf8_lines], for the encodings scanned by bytes: the terminated
    lines of what is left in the buffer, then with [finished] the rest of
    it as it stands. *)
Lemma loop_list fuel finished e bytes byte_offset :
  code_unit e = char ->
  0 <= byte_offset <= bytes_size bytes ->
  (finished = true -> bytes_size bytes < size_t_max) ->
  bytes_size bytes - byte_offset < Z.of_nat fuel ->
  exists u,
    loop fuel finished (mk_encoded_buffer e bytes byte_offset)
    = Done (map (utf8_of e)
              (terminated_lines [] (skipn (Z.to_nat byte_offset) bytes))
            ++ (if finished then last_line e u else []),
            mk_encoded_buffer e bytes
              (if finished then bytes_size bytes
               else bytes_size bytes - Z.of_nat (length u))) /\
    skipn (Z.to_nat (bytes_size bytes - Z.of_nat (length u))) bytes = u /\
    Z.of_nat (length u) <= bytes_size bytes - byte_offset /\
    first_line [] u = None /\
    pending [] u = pending [] (skipn (Z.to_nat byte_offset) bytes).
Proof.
  intros He. revert byte_offset.
  induction fuel as [|fuel IH]; intros off Hb Hmax Hf; [lia|].
  rewrite loop_S. cbn [e_ bytes_ last_]. rewrite He.
  pose proof (next_line_list bytes finished off Hb) as Hn.
  pose proof (suffix_length bytes off Hb) as Hl.
  rewrite terminated_lines_first.
  destruct (first_line [] (skipn (Z.to_nat off) bytes)) as [[l u1]|] eqn:Ef.
  - destruct Hn as (v & Hn & Hv & Hc). rewrite Hn. cbn [bind]. cbv zeta.
    rewrite Hv. unfold set_last. cbn [e_ bytes_].
    rewrite (conv_char _ _ _ _ He Hc). cbn [bind].
    pose proof (first_line_suffix _ _ _ _ Ef) as [Hlt Hsuf].
    rewrite skipn_skipn in Hsuf.
    assert (Z.to_nat (bytes_size bytes - Z.of_nat (length u1))
            = (length (skipn (Z.to_nat off) bytes) - length u1
               + Z.to_nat off)%nat) as Hoff by lia.
    destruct (IH (bytes_size bytes - Z.of_nat (length u1)))
      as (u & Hloop & H1 & H2 & H3 & H4); try lia; auto.
    rewrite Hloop. cbn [bind]. rewrite Hoff, Hsuf in *.
    exists u. repeat split; auto; try lia.
    rewrite H4. symmetry. eapply pending_first; eauto.
  - exists (skipn (Z.to_nat off) bytes).
    assert (skipn (Z.to_nat (bytes_size bytes
                             - Z.of_nat (length (skipn (Z.to_nat off) bytes))))
              bytes = skipn (Z.to_nat off) bytes) as Hsame.
    { f_equal. lia. }
    repeat split; auto; try lia.
    destruct finished.
    + rewrite Hn. cbn [bind]. cbv zeta.
      assert (size_t_sub (bytes_size bytes) off = bytes_size bytes - off) as Hc.
      { unfold size_t_sub. apply Z.mod_small. specialize (Hmax eq_refl). lia. }
      unfold empty. cbn [count]. rewrite Hc. unfold set_last. cbn [e_ bytes_].
      destruct (bytes_size bytes - off =? 0) eqn:E0.
      * apply Z.eqb_eq in E0.
        assert (skipn (Z.to_nat off) bytes = []) as ->.
        { apply length_zero_iff_nil. lia. }
        reflexivity.
      * apply Z.eqb_neq in E0.
        assert (chars_of bytes (mk_view off (bytes_size bytes - off))
                = Done (skipn (Z.to_nat off) bytes)) as Hch.
        { unfold chars_of. cbn [data count].
          replace ((0 <=? off) && (off + (bytes_size bytes - off)
                                  <=? bytes_size bytes)) with true.
          - unfold slice. rewrite firstn_all2; [reflexivity|]. lia.
          - symmetry. apply andb_true_intro. split; apply Z.leb_le; lia. }
        rewrite (conv_char _ _ _ _ He Hch). cbn [bind].
        destruct fuel as [|fuel]; [lia|].
        rewrite loop_at_end; cbn [e_ bytes_ last_]; auto; [|now rewrite He].
        cbn [bind app map].
        destruct (skipn (Z.to_nat off) bytes) eqn:Es; [cbn [length] in Hl; lia|].
        reflexivity.
    + destruct Hn as (line & Hn & Hv). rewrite Hn. cbn [bind]. cbv zeta.
      rewrite Hv. unfold set_last. cbn [e_ bytes_ map app].
      do 2 f_equal. f_equal. lia.
Qed.

Lemma next_utf8_lines_list finished e bytes byte_offset :
  code_unit e = char ->
  0 <= byte_offset <= bytes_size bytes ->
  (finished = true -> bytes_size bytes < size_t_max) ->
  exists u,
    next_lines finished (mk_encoded_buffer e bytes byte_offset)
    = Done (map (utf8_of e)
              (terminated_lines [] (skipn (Z.to_nat byte_offset) bytes))
            ++ (if finished then last_line e u else []),
            mk_encoded_buffer e bytes
              (if finished then bytes_size bytes
               else bytes_size bytes - Z.of_nat (length u))) /\
    skipn (Z.to_nat (bytes_size bytes - Z.of_nat (length u))) bytes = u /\
    Z.of_nat (length u) <= bytes_size bytes - byte_offset /\
    first_line [] u = None /\
    pending [] u = pending [] (skipn (Z.to_nat byte_offset) bytes).
Proof.
  intros He Hb Hmax. apply loop_list; auto.
  cbn [bytes_]. unfold bytes_size. lia.
Qed.

Lemma run_app b cs1 cs2 :
  run_calls b (cs1 ++ cs2) =
  ('(l1, b1) <- run_calls b cs1 ;;
   '(l2, b2) <- run_calls b1 cs2 ;;
   Done (l1 ++ l2, b2)).
Proof.
  revert b. induction cs1 as [|c cs1 IH]; intros b.
  - cbn [app run bind]. destruct (run_calls b cs2) as [[l2 b2]|]; reflexivity.
  - cbn [app run]. destruct (do_call _ _ b c) as [[l b1]|]; [|reflexivity].
    cbn [bind]. rewrite IH.
    destruct (run_calls b1 cs1) as [[l1 b2]|]; [|reflexivity]. cbn [bind].
    destruct (run_calls b2 cs2) as [[l2 b3]|]; [|reflexivity]. cbn [bind].
    now rewrite app_assoc.
Qed.

Lemma settled_new e : settled (new_buffer e []) [].
Proof. repeat split; cbn; lia. Qed.

(** One chunk added to a settled decoder, and the lines taken. *)
Lemma settled_step e b all c :
  code_unit e = char -> e_ b = e -> settled b all ->
  exists b',
    run_calls b [call_add c; call_next_utf8_lines false]
    = Done (map (utf8_of e) (terminated_lines (pending [] all) c), b') /\
    e_ b' = e /\ settled b' (all ++ c).
Proof.
  intros He Hb (Hbytes & Hlast & Hnone & Hpend).
  destruct b as [e' bytes last]. cbn [e_ bytes_ last_] in *. subst e' bytes.
  cbn [run do_call bind]. unfold add. cbn [e_ bytes_ last_].
  assert (skipn (Z.to_nat last) (all ++ c) = skipn (Z.to_nat last) all ++ c)
    as Hsk.
  { rewrite skipn_app.
    replace (Z.to_nat last - length all)%nat with 0%nat
      by (unfold bytes_size in Hlast; lia).
    reflexivity. }
  destruct (next_utf8_lines_list false e (all ++ c) last) as (u & Hn & H1 & H2 & H3 & H4);
    auto; try discriminate.
  { unfold bytes_size in *. rewrite length_app. lia. }
  rewrite Hn. cbn [bind]. rewrite app_nil_r, app_nil_r.
  eexists. split; [|split].
  - rewrite Hsk, terminated_lines_app, Hpend.
    rewrite (terminated_lines_first [] (skipn _ all)), Hnone. reflexivity.
  - reflexivity.
  - unfold settled. cbn [bytes_ last_]. rewrite H1.
    repeat split; auto; try lia.
    rewrite H4, Hsk, !pending_app. now rewrite Hpend.
Qed.

Lemma fed_open_settled e chunks b all :
  code_unit e = char -> e_ b = e -> settled b all ->
  exists b',
    run_calls b (fed_open chunks)
    = Done (map (utf8_of e) (terminated_lines (pending [] all) (concat chunks)),
            b') /\
    e_ b' = e /\ settled b' (all ++ concat chunks).
Proof.
  intros He. revert b all.
  induction chunks as [|c chunks IH]; intros b all Hb Hs.
  - cbn. rewrite app_nil_r. eauto.
  - change (fed_open (c :: chunks))
      with ([call_add c; call_next_utf8_lines false] ++ fed_open chunks).
    rewrite run_app.
    destruct (settled_step e b all c He Hb Hs) as (b1 & Hr & Hb1 & Hs1).
    rewrite Hr. cbn [bind].
    destruct (IH b1 (all ++ c) Hb1 Hs1) as (b2 & Hr2 & Hb2 & Hs2).
    rewrite Hr2. cbn [bind concat].
    exists b2. split; [|split].
    + now rewrite terminated_lines_app, map_app, pending_app.
    + exact Hb2.
    + rewrite app_assoc. exact Hs2.
Qed.

(** While the stream is open the lines do not depend on the chunks: they
    are the terminated lines of the bytes. *)
Lemma open_chunking_invariance e chunks :
  code_unit e = char ->
  lines_of (run_calls (new_buffer e []) (fed_open chunks))
  = Done (map (utf8_of e) (terminated_lines [] (concat chunks))).
Proof.
  intros He.
  destruct (fed_open_settled e chunks (new_buffer e []) [] He eq_refl
              (settled_new e)) as (b & Hr & _).
  rewrite Hr. reflexivity.
Qed.

(** With the final flush, the chunks show in the last line only, and there
    only in the separators it begins with. *)
Lemma chunking_up_to_last_line e chunks :
  code_unit e = char ->
  bytes_size (concat chunks) < size_t_max ->
  exists u u',
    lines_of (run_calls (new_buffer e []) (fed_in_chunks chunks))
    = Done (map (utf8_of e) (terminated_lines [] (concat chunks))
            ++ last_line e u) /\
    lines_of (run_calls (new_buffer e []) (fed_at_once (concat chunks)))
    = Done (map (utf8_of e) (terminated_lines [] (concat chunks))
            ++ last_line e u') /\
    drop_separators u = rev (pending [] (concat chunks)) /\
    drop_separators u' = rev (pending [] (concat chunks)).
Proof.
  intros He Hmax.
  destruct (fed_open_settled e chunks (new_buffer e []) [] He eq_refl
              (settled_new e)) as (b & Hr & Hb & Hs).
  cbn [app] in Hs. destruct Hs as (Hbytes & Hlast & Hnone & Hpend).
  destruct b as [e' bytes last]. cbn [e_ bytes_ last_] in *. subst e' bytes.
  destruct (next_utf8_lines_list true e (concat chunks) last)
    as (u & Hn & _ & _ & Hu1 & Hu2); auto.
  destruct (next_utf8_lines_list true e (concat chunks) 0)
    as (u' & Hn' & _ & _ & Hu1' & Hu2'); auto.
  { unfold bytes_size. lia. }
  exists u, u'. repeat split.
  - unfold fed_in_chunks. rewrite run_app, Hr. cbn [bind run do_call].
    rewrite Hn. cbn [bind lines_of].
    rewrite (terminated_lines_first [] (skipn _ _)), Hnone.
    cbn [map app]. now rewrite app_nil_r.
  - unfold fed_at_once. cbn [run do_call bind]. unfold add, new_buffer.
    cbn [e_ bytes_ last_ app].
    unfold new_buffer in Hn'. rewrite Hn'. cbn [bind lines_of].
    now rewrite app_nil_r.
  - rewrite (no_line_drop_separators _ Hu1), Hu2, Hpend. reflexivity.
  - rewrite (no_line_drop_separators _ Hu1'), Hu2'. reflexivity.
Qed.

End ByteLines.

(** * [next_line] behind the buffer *)

Lemma around_holds bytes behind : holds (around bytes behind) bytes.
Proof.
  intros i c H. unfold around.
  pose proof (byte_at_Done _ _ _ H) as Hi. unfold bytes_size in Hi.
  revert H. unfold byte_at. destruct (0 <=? i); [|discriminate].
  rewrite nth_error_app1 by lia.
  now destruct (nth_error bytes (Z.to_nat i)); intros [= <-].
Qed.

(** Inside the buffer the memory gives what the buffer gives. *)
Lemma fetch_deref m C bytes p c :
  holds m bytes -> deref C bytes p = Done c -> fetch m C p = Done c.
Proof.
  intros Hm. destruct C; cbn [deref fetch]; unfold load; intros H.
  - now rewrite (Hm _ _ H).
  - bind_inv H. bind_inv H.
    rewrite (Hm _ _ E). cbn [bind]. rewrite (Hm _ _ E0). exact H.
Qed.

Section InMemory.

Variable m : memory.
Variable C : CharT.
Variable end_ : Z.

Lemma skip_separators_in_S fuel p :
  skip_separators_in m (S fuel) C end_ p =
  if p =? end_ then Done p
  else
    c <- fetch m C p ;;
    if is_separator c
    then skip_separators_in m fuel C end_ (p + sizeof C)
    else Done p.
Proof. reflexivity. Qed.

Lemma scan_in_S fuel start p line :
  scan_in m (S fuel) C end_ start p line =
  if p =? end_ then Done (p, line)
  else
    c <- fetch m C p ;;
    if is_separator c then
      p' <- skip_separators_in m (S fuel) C end_ p ;;
      if negb (empty (mk_view start ((p - start) / sizeof C)))
      then Done (p', mk_view start ((p - start) / sizeof C))
      else scan_in m fuel C end_ p' p' (mk_view start ((p - start) / sizeof C))
    else scan_in m fuel C end_ start (p + sizeof C) line.
Proof. reflexivity. Qed.

(** More fuel does not change what a loop returns. *)
Lemma skip_separators_in_more fuel fuel' p p' :
  (fuel <= fuel')%nat ->
  skip_separators_in m fuel C end_ p = Done p' ->
  skip_separators_in m fuel' C end_ p = Done p'.
Proof.
  revert fuel' p. induction fuel as [|fuel IH]; intros fuel' p Hf H;
    [discriminate|].
  destruct fuel' as [|fuel']; [lia|].
  rewrite skip_separators_in_S in *.
  destruct (p =? end_); [exact H|].
  destruct (fetch m C p) as [c|f]; cbn [bind] in *; [|discriminate].
  destruct (is_separator c); [|exact H].
  apply (IH fuel'); [lia|exact H].
Qed.

Lemma scan_in_more fuel fuel' start p line r :
  (fuel <= fuel')%nat ->
  scan_in m fuel C end_ start p line = Done r ->
  scan_in m fuel' C end_ start p line = Done r.
Proof.
  revert fuel' start p line.
  induction fuel as [|fuel IH]; intros fuel' start p line Hf H;
    [discriminate|].
  destruct fuel' as [|fuel']; [lia|].
  rewrite scan_in_S in *.
  destruct (p =? end_); [exact H|].
  destruct (fetch m C p) as [c|f]; cbn [bind] in *; [|discriminate].
  destruct (is_separator c).
  - bind_inv H.
    rewrite (skip_separators_in_more (S fuel) (S fuel') p a Hf E).
    cbn [bind]. destruct (negb _); [exact H|].
    apply (IH fuel'); [lia|exact H].
  - apply (IH fuel'); [lia|exact H].
Qed.

(** The loops only move forward. *)
Lemma skip_separators_in_forward fuel p p' :
  skip_separators_in m fuel C end_ p = Done p' -> p <= p'.
Proof.
  revert p. induction fuel as [|fuel IH]; intros p H; [discriminate|].
  rewrite skip_separators_in_S in H.
  destruct (p =? end_); [injection H as <-; lia|].
  bind_inv H. pose proof (sizeof_pos C).
  destruct (is_separator a); [apply IH in H; lia|injection H as <-; lia].
Qed.

Lemma skip_separators_in_advances fuel p p' c :
  p <> end_ -> fetch m C p = Done c -> is_separator c = true ->
  skip_separators_in m fuel C end_ p = Done p' ->
  p + sizeof C <= p'.
Proof.
  intros Hp Hc Hs H. destruct fuel as [|fuel]; [discriminate|].
  rewrite skip_separators_in_S in H.
  apply Z.eqb_neq in Hp. rewrite Hp, Hc in H. cbn [bind] in H.
  rewrite Hs in H. now apply skip_separators_in_forward in H.
Qed.

(** Started behind [end], the outer loop never finds [p == end]: it can
    only be left through [break], with a line that is not empty and [p]
    further behind. *)
Lemma scan_in_behind fuel start p line p' line' :
  end_ < p ->
  scan_in m fuel C end_ start p line = Done (p', line') ->
  empty line' = false /\ p + sizeof C <= p'.
Proof.
  revert start p line.
  induction fuel as [|fuel IH]; intros start p line Hp H; [discriminate|].
  rewrite scan_in_S in H.
  assert (p <> end_) as Hne by lia.
  pose proof Hne as Hne'. apply Z.eqb_neq in Hne'. rewrite Hne' in H.
  bind_inv H. pose proof (sizeof_pos C) as Hw.
  destruct (is_separator a) eqn:Es.
  - bind_inv H. rename a0 into q.
    pose proof (skip_separators_in_advances _ _ _ _ Hne E Es E0) as Hq.
    destruct (negb (empty _)) eqn:En.
    + injection H as <- <-. split; [|exact Hq].
      now apply negb_true_iff in En.
    + apply IH in H; [|lia]. split; [easy|lia].
  - apply IH in H; [|lia]. split; [easy|lia].
Qed.

End InMemory.

(** A call that returns in the model that stops at the first read outside
    the buffer returns the same in any memory that has the buffer. *)
Lemma skip_separators_in_agrees m C bytes end_ fuel p p' :
  holds m bytes ->
  skip_separators fuel C bytes end_ p = Done p' ->
  skip_separators_in m fuel C end_ p = Done p'.
Proof.
  intros Hm. revert p. induction fuel as [|fuel IH]; intros p H;
    [discriminate|].
  cbn [skip_separators] in H. rewrite skip_separators_in_S.
  destruct (p =? end_); [exact H|].
  bind_inv H. rewrite (fetch_deref _ _ _ _ _ Hm E). cbn [bind].
  destruct (is_separator a); [now apply IH|exact H].
Qed.

Lemma scan_in_agrees m C bytes end_ fuel start p line r :
  holds m bytes ->
  scan fuel C bytes end_ start p line = Done r ->
  scan_in m fuel C end_ start p line = Done r.
Proof.
  intros Hm. revert start p line.
  induction fuel as [|fuel IH]; intros start p line H; [discriminate|].
  cbn [scan] in H. rewrite scan_in_S.
  destruct (p =? end_); [exact H|].
  bind_inv H. rewrite (fetch_deref _ _ _ _ _ Hm E). cbn [bind].
  destruct (is_separator a).
  - bind_inv H.
    rewrite (skip_separators_in_agrees _ _ _ _ _ _ _ Hm E0). cbn [bind].
    destruct (negb _); [exact H|now apply IH].
  - now apply IH.
Qed.

Lemma next_line_in_agrees m C finished bytes byte_offset r fuel :
  holds m bytes ->
  next_line C finished bytes byte_offset = Done r ->
  (length bytes < fuel)%nat ->
  next_line_in m fuel C finished bytes byte_offset = Done r.
Proof.
  intros Hm H Hf. unfold next_line in H. unfold next_line_in.
  fold (usable_size C bytes) in *.
  bind_inv H.
  apply (scan_in_agrees _ _ _ _ _ _ _ _ _ Hm) in E.
  rewrite (scan_in_more _ _ _ (S (length bytes)) fuel _ _ _ _ ltac:(lia) E).
  exact H.
Qed.

(** A call that starts behind the [end] of its scan does not return: if
    its loop ends, [p] is behind the buffer and the assertion fails. *)
Lemma next_line_in_behind m fuel C finished bytes byte_offset :
  usable_size C bytes < byte_offset ->
  (forall r, next_line_in m fuel C finished bytes byte_offset <> Done r) /\
  (forall p line,
      scan_in m fuel C (usable_size C bytes) byte_offset byte_offset no_line
        = Done (p, line) ->
      empty line = false /\ bytes_size bytes < p /\
      next_line_in m fuel C finished bytes byte_offset
        = Fault assertion_failed).
Proof.
  intros Hb. pose proof (usable_size_bounds C bytes) as [_ Hu].
  pose proof (sizeof_pos C) as Hw.
  assert (forall p line,
             scan_in m fuel C (usable_size C bytes) byte_offset byte_offset
               no_line = Done (p, line) ->
             empty line = false /\ bytes_size bytes < p /\
             next_line_in m fuel C finished bytes byte_offset
               = Fault assertion_failed) as Hscan.
  { intros p line H. pose proof H as H'.
    apply scan_in_behind in H' as [He Hp]; [|exact Hb].
    split; [exact He|]. split; [lia|].
    unfold next_line_in. fold (usable_size C bytes). rewrite H. cbn [bind].
    rewrite He.
    destruct (p <=? bytes_size bytes) eqn:Ea; [|reflexivity].
    apply Z.leb_le in Ea. lia. }
  split; [|exact Hscan].
  intros r H.
  destruct (scan_in m fuel C (usable_size C bytes) byte_offset byte_offset
              no_line) as [[p line]|f] eqn:E.
  - destruct (Hscan p line eq_refl) as (_ & _ & Hf). congruence.
  - unfold next_line_in in H. fold (usable_size C bytes) in H.
    rewrite E in H. discriminate.
Qed.

(** * The properties of the specification *)

Section LineDecoder.

Variable utf16_to_utf8 : list Z -> list byte.
Variable bytes_to_utf8 : encodings -> list byte -> list byte.

Local Abbreviation next_utf8_lines :=
  (next_utf8_lines utf16_to_utf8 bytes_to_utf8).
Local Abbreviation run := (run utf16_to_utf8 bytes_to_utf8).
Local Abbreviation from_nonempty_view :=
  (from_nonempty_view utf16_to_utf8 bytes_to_utf8).
Local Abbreviation in_utf8 := (in_utf8 bytes_to_utf8).

(** C1. Chunking invariance does not hold when a chunk ends inside a run
    of separators: "a\r" followed by "\nb" gives the lines "a" and "\nb",
    the same bytes fed in one call give "a" and "b".  The lines taken while
    the stream is open do not depend on the chunks
    ([open_chunking_invariance]); the last line does, in the separators it
    begins with ([chunking_up_to_last_line]). *)
Theorem chunking_inside_separators :
  lines_of (run (new_buffer utf8 [])
              (fed_in_chunks [text "a" ++ [cr]; [lf] ++ text "b"]))
    = Done [text "a"; [lf] ++ text "b"] /\
  lines_of (run (new_buffer utf8 [])
              (fed_at_once (concat [text "a" ++ [cr]; [lf] ++ text "b"])))
    = Done [text "a"; text "b"].
Proof. split; vm_compute; reflexivity. Qed.

(** C2. A stream of separators only: nothing is handed to [f] while the
    stream is open, but the final flush hands over the separators
    themselves as a line.  [separators_only_open] and
    [separators_only_closed] say so for every such stream. *)
Theorem separators_only_flushed :
  lines_of (run (new_buffer utf8 [])
              [call_add [cr; lf]; call_next_utf8_lines false])
    = Done [] /\
  lines_of (run (new_buffer utf8 [])
              [call_add [cr; lf]; call_next_utf8_lines false;
               call_next_utf8_lines true])
    = Done [[cr; lf]].
Proof. split; vm_compute; reflexivity. Qed.

(** C3. UTF-16 with an odd number of bytes.  While the stream is open the
    scan stops before the dangling byte.  The final flush does read
    outside the buffer: it takes the number of bytes left for the number of
    code units, so the view over the three bytes 61 00 62 spans four
    bytes; and with the single byte 61 it hands over nothing, moves the
    offset behind it, and the next scan starts outside the buffer. *)
Theorem utf16_odd_flush_out_of_bounds :
  next_utf8_lines false (add (new_buffer utf16 []) [x61; x00; x62])
    = Done ([], add (new_buffer utf16 []) [x61; x00; x62]) /\
  next_utf8_lines true (add (new_buffer utf16 []) [x61; x00; x62])
    = Fault out_of_bounds /\
  next_utf8_lines true (add (new_buffer utf16 []) [x61])
    = Done ([], mk_encoded_buffer utf16 [x61] 1) /\
  next_utf8_lines false (mk_encoded_buffer utf16 [x61] 1)
    = Fault out_of_bounds.
Proof. repeat split; vm_compute; reflexivity. Qed.

(** C5. Trailing partial line: with the bytes of "partial" added and no
    separator among them, [next_utf8_lines(false, f)] calls [f] zero times;
    [next_utf8_lines(true, f)] then calls it exactly once, with "partial";
    and every call after that calls it zero times. This is for the
    encodings scanned by bytes; where the encoding is unknown or UTF-8 the
    line is handed over as it is. *)
Theorem trailing_partial_line e :
  code_unit e = char ->
  exists b1,
    next_utf8_lines false (add (new_buffer e []) (text "partial"))
      = Done ([], add (new_buffer e []) (text "partial")) /\
    next_utf8_lines true (add (new_buffer e []) (text "partial"))
      = Done ([in_utf8 e (text "partial")], b1) /\
    (forall finished, next_utf8_lines finished b1 = Done ([], b1)) /\
    (forall cs, Forall is_next_utf8_lines cs -> run b1 cs = Done ([], b1)).
Proof.
  intros He.
  exists (mk_encoded_buffer e (text "partial") 7).
  assert (forall finished,
             next_utf8_lines finished (mk_encoded_buffer e (text "partial") 7)
             = Done ([], mk_encoded_buffer e (text "partial") 7)) as Hrest.
  { intros finished. apply next_utf8_lines_at_end; cbn [e_ bytes_ last_].
    - reflexivity.
    - rewrite He. reflexivity. }
  repeat split.
  - destruct e; try discriminate; vm_compute; reflexivity.
  - destruct e; try discriminate; vm_compute; reflexivity.
  - exact Hrest.
  - intros cs Hcs. now apply run_at_rest.
Qed.

(** C6. UTF-16 with an odd number of bytes: the final flush moves the
    offset behind the dangling byte, past the [end] of the scan; the next
    call starts there and reads outside the buffer.  Where the buffer holds
    whole code units only, the calls after the flush find nothing
    ([flushed_is_at_rest]). *)
Theorem utf16_call_after_flush_out_of_bounds :
  exists b1,
    next_utf8_lines true (add (new_buffer utf16 []) [x61; x00; x0a; x00; x62])
      = Done ([utf16_to_utf8 [97]], b1) /\
    last_ b1 = 5 /\
    forall finished, next_utf8_lines finished b1 = Fault out_of_bounds.
Proof.
  eexists. split; [vm_compute; reflexivity|]. split; [reflexivity|].
  intros [|]; vm_compute; reflexivity.
Qed.

(** C7. Separator collapsing: each of "a\r\nb", "a\n\rb", "a\rb" and "a\nb",
    added and decoded by calls that end with [finished = true], gives
    exactly the two lines "a" and "b", in this order. *)
Theorem separator_collapsing e input :
  code_unit e = char ->
  In input separator_inputs ->
  lines_of (run (new_buffer e [])
              [call_add input; call_next_utf8_lines true])
    = Done [in_utf8 e (text "a"); in_utf8 e (text "b")] /\
  lines_of (run (new_buffer e [])
              [call_add input; call_next_utf8_lines false;
               call_next_utf8_lines true])
    = Done [in_utf8 e (text "a"); in_utf8 e (text "b")].
Proof.
  intros He Hin. unfold separator_inputs in Hin. cbn [In] in Hin.
  destruct Hin as [<-|[<-|[<-|[<-|[]]]]];
    destruct e; try discriminate; split; vm_compute; reflexivity.
Qed.

(** For the calls that return: after every [add] and every
    [next_utf8_lines] the offset is at most the length of the buffer; and a
    scan starts at the offset: whatever bytes stand before it, the lines
    found and the new offset are the same. *)
Lemma offset_invariant e bytes0 cs ls b :
  run (new_buffer e bytes0) cs = Done (ls, b) ->
  0 <= last_ b <= bytes_size (bytes_ b) /\
  forall finished before,
    length before = Z.to_nat (last_ b) ->
    observed (next_utf8_lines finished
                (mk_encoded_buffer (e_ b)
                   (before ++ skipn (Z.to_nat (last_ b)) (bytes_ b))
                   (last_ b)))
    = observed (next_utf8_lines finished b).
Proof.
  intros H. apply run_Done in H as (_ & _ & H & _).
  cbn [new_buffer last_ bytes_] in H.
  assert (0 <= last_ b <= bytes_size (bytes_ b)) as Hb.
  { apply H. unfold bytes_size. lia. }
  split; [exact Hb|]. intros finished before Hlen.
  destruct b as [e' bytes last]. cbn [e_ bytes_ last_] in *.
  unfold bytes_size in Hb.
  pose proof (firstn_skipn (Z.to_nat last) bytes) as Hsplit.
  assert (length before = length (firstn (Z.to_nat last) bytes)) as Hsame.
  { rewrite length_firstn. lia. }
  pose proof (next_utf8_lines_agree utf16_to_utf8 bytes_to_utf8 before
                (firstn (Z.to_nat last) bytes) (skipn (Z.to_nat last) bytes)
                Hsame finished e' last) as Hag.
  rewrite Hsplit in Hag. apply Hag. lia.
Qed.

(** C8. The offset invariant does not hold under UTF-16 when the number of
    bytes is odd.  With the single byte 61 added, the final flush leaves
    the offset at 1, the length of the buffer, which is behind the [end] of
    the scan (0).  The next call starts its scan there, so [p != end] never
    fails: the loop reads behind the buffer and can only be left through
    [break], with [p] behind the buffer; [byte_offset], which is [last_]
    by reference, is then set to [p], and [MOB_ASSERT] fails on it.
    Whatever the memory holds, the call does not return.  With a line feed
    two code units behind the buffer the offset is set to 5, in a buffer of
    one byte.  For the calls that return the invariant holds
    ([offset_invariant]). *)
Theorem offset_behind_buffer_after_utf16_flush :
  exists b1,
    next_utf8_lines true (add (new_buffer utf16 []) [x61]) = Done ([], b1) /\
    bytes_ b1 = [x61] /\ last_ b1 = 1 /\
    usable_size wchar_t (bytes_ b1) = 0 /\
    (forall m fuel finished,
        (forall r, next_line_in m fuel wchar_t finished (bytes_ b1) (last_ b1)
                   <> Done r) /\
        (forall p line,
            scan_in m fuel wchar_t (usable_size wchar_t (bytes_ b1))
              (last_ b1) (last_ b1) no_line = Done (p, line) ->
            empty line = false /\ bytes_size (bytes_ b1) < p /\
            next_line_in m fuel wchar_t finished (bytes_ b1) (last_ b1)
              = Fault assertion_failed)) /\
    scan_in (around [x61] [x00; x00; x0a; x00; x00; x00]) 3 wchar_t
      (usable_size wchar_t (bytes_ b1)) (last_ b1) (last_ b1) no_line
      = Done (5, mk_view 1 1) /\
    (forall finished,
        next_line_in (around [x61] [x00; x00; x0a; x00; x00; x00]) 3 wchar_t
          finished (bytes_ b1) (last_ b1)
        = Fault assertion_failed).
Proof.
  exists (mk_encoded_buffer utf16 [x61] 1). cbn [bytes_ last_].
  split; [vm_compute; reflexivity|].
  do 3 (split; [reflexivity|]).
  split.
  { intros m fuel finished. apply next_line_in_behind. reflexivity. }
  split; [vm_compute; reflexivity|].
  intros [|]; vm_compute; reflexivity.
Qed.

(** C9. [f] is never called with an empty line: every line handed to it
    comes from a view that is not empty, whatever the encoding and
    [finished]. *)
Theorem no_empty_line_emitted finished b ls b' :
  next_utf8_lines finished b = Done (ls, b') ->
  Forall (from_nonempty_view (e_ b)) ls.
Proof.
  intros H. now apply next_utf8_lines_Done in H as (_ & _ & _ & _ & H & _).
Qed.

(** When the scan gives an empty view, the loop returns and [f] is not
    called. *)
Lemma empty_view_returns fuel finished b line last :
  next_line (code_unit (e_ b)) finished (bytes_ b) (last_ b) = Done (line, last) ->
  empty line = true ->
  next_utf8_lines_loop utf16_to_utf8 bytes_to_utf8 (S fuel) finished b
  = Done ([], set_last b last).
Proof.
  intros Hn He. rewrite loop_S, Hn. cbn [bind]. cbn zeta. now rewrite He.
Qed.

(** C10. The offset never moves backwards: no sequence of [add] and
    [next_utf8_lines] calls ends with a smaller offset than it started
    with. *)
Theorem offset_monotone b cs ls b' :
  run b cs = Done (ls, b') -> last_ b <= last_ b'.
Proof.
  intros H. now apply run_Done in H as (_ & H & _).
Qed.

End LineDecoder.

(** ** The pipeline *)

(** Whatever [pipe_into] does, [pipe] applies it once: the descriptors
    after the second have no part in what is returned. *)
Lemma pipe_two_only (P : Type) (into : P -> P -> P) p1 p2 ps :
  pipe P into p1 (p2 :: ps) = into p1 p2.
Proof. reflexivity. Qed.

Lemma pipe_two (P : Type) (into : P -> P -> P) p1 p2 :
  pipe P into p1 [p2] = into p1 p2.
Proof. reflexivity. Qed.

(** C4. [pipe] chains the first two descriptors only.  The call that
    pipes into the third one works on a copy and its result is dropped:
    whatever [pipe_into] does, the descriptors after the second have no
    part in what [pipe] returns, and [pipe(p1, p2, p3)] is the chain of
    [p1] and [p2] where the specification has the three of them. *)
Theorem pipe_drops_later_descriptors :
  (forall (P : Type) (into : P -> P -> P) p1 p2 ps,
      pipe P into p1 (p2 :: ps) = into p1 p2) /\
  commands (pipe process pipe_into (mk_process ["p1"%string])
              [mk_process ["p2"%string]; mk_process ["p3"%string]])
    = ["p1"%string; "p2"%string] /\
  left_to_right (mk_process ["p1"%string])
    [mk_process ["p2"%string]; mk_process ["p3"%string]]
    = ["p1"%string; "p2"%string; "p3"%string].
Proof. repeat split. Qed.

(** Witnesses of the theorems above that have a hypothesis. *)

Lemma trailing_partial_line_witness :
  code_unit utf8 = char /\
  exists b1,
    next_utf8_lines low_bytes same_bytes false
      (add (new_buffer utf8 []) (text "partial"))
      = Done ([], add (new_buffer utf8 []) (text "partial")) /\
    next_utf8_lines low_bytes same_bytes true
      (add (new_buffer utf8 []) (text "partial"))
      = Done ([in_utf8 same_bytes utf8 (text "partial")], b1) /\
    (forall finished,
        next_utf8_lines low_bytes same_bytes finished b1 = Done ([], b1)) /\
    (forall cs, Forall is_next_utf8_lines cs ->
                run low_bytes same_bytes b1 cs = Done ([], b1)).
Proof.
  split; [reflexivity|].
  apply (trailing_partial_line low_bytes same_bytes utf8). reflexivity.
Defined.

Lemma separator_collapsing_witness :
  code_unit acp = char /\
  In (text "a" ++ [lf; cr] ++ text "b") separator_inputs /\
  lines_of (run low_bytes same_bytes (new_buffer acp [])
              [call_add (text "a" ++ [lf; cr] ++ text "b");
               call_next_utf8_lines true])
    = Done [text "a"; text "b"].
Proof.
  split; [reflexivity|]. split; [cbn; auto|].
  apply (separator_collapsing low_bytes same_bytes acp
           (text "a" ++ [lf; cr] ++ text "b")).
  - reflexivity.
  - cbn. auto.
Defined.

Lemma offset_invariant_witness :
  run low_bytes same_bytes (new_buffer utf8 (text "ab"))
    [call_add [lf]; call_next_utf8_lines false; call_add (text "c")]
  = Done ([text "ab"], mk_encoded_buffer utf8 (text "ab" ++ [lf] ++ text "c") 3)
  /\ 0 <= 3 <= 4.
Proof.
  split; [vm_compute; reflexivity|].
  apply (offset_invariant low_bytes same_bytes utf8 (text "ab")
           [call_add [lf]; call_next_utf8_lines false; call_add (text "c")]
           [text "ab"]
           (mk_encoded_buffer utf8 (text "ab" ++ [lf] ++ text "c") 3)).
  vm_compute. reflexivity.
Defined.

Lemma no_empty_line_emitted_witness :
  next_utf8_lines low_bytes same_bytes true
    (new_buffer utf8 ([lf] ++ text "a" ++ [lf; lf] ++ text "b"))
  = Done ([text "a"; text "b"],
          mk_encoded_buffer utf8 ([lf] ++ text "a" ++ [lf; lf] ++ text "b") 5)
  /\ Forall (from_nonempty_view low_bytes same_bytes utf8) [text "a"; text "b"].
Proof.
  split; [vm_compute; reflexivity|].
  apply (no_empty_line_emitted low_bytes same_bytes true
           (new_buffer utf8 ([lf] ++ text "a" ++ [lf; lf] ++ text "b"))
           [text "a"; text "b"]
           (mk_encoded_buffer utf8 ([lf] ++ text "a" ++ [lf; lf] ++ text "b") 5)).
  vm_compute. reflexivity.
Defined.

Lemma offset_monotone_witness :
  run low_bytes same_bytes (mk_encoded_buffer utf8 (text "ab" ++ [lf]) 3)
    [call_add (text "cd" ++ [cr; lf]); call_next_utf8_lines false]
  = Done ([text "cd"],
          mk_encoded_buffer utf8 ((text "ab" ++ [lf]) ++ text "cd" ++ [cr; lf]) 7)
  /\ 3 <= 7.
Proof.
  split; [vm_compute; reflexivity|].
  apply (offset_monotone low_bytes same_bytes
           (mk_encoded_buffer utf8 (text "ab" ++ [lf]) 3)
           [call_add (text "cd" ++ [cr; lf]); call_next_utf8_lines false]
           [text "cd"]
           (mk_encoded_buffer utf8
              ((text "ab" ++ [lf]) ++ text "cd" ++ [cr; lf]) 7)).
  vm_compute. reflexivity.
Defined.


(** * Further properties of the line decoder *)

Lemma terminated_lines_clean cur r :
  Forall (fun c => is_separator_byte c = false) cur ->
  Forall (fun l => l <> [] /\ Forall (fun c => is_separator_byte c = false) l)
         (terminated_lines cur r).
Proof.
  revert cur. induction r as [|b r IH]; intros cur Hcur; [constructor|].
  cbn [terminated_lines]. destruct (is_separator_byte b) eqn:Eb.
  - destruct cur as [|c cur']; [apply IH; constructor|].
    constructor; [|apply IH; constructor].
    split; [|now apply Forall_rev].
    cbn [rev]. intros H. now apply app_eq_nil in H as [_ H].
  - apply IH. now constructor.
Qed.

Section DecoderHelpers.

Variable utf16_to_utf8 : list Z -> list byte.
Variable bytes_to_utf8 : encodings -> list byte -> list byte.

Local Abbreviation next_lines := (next_utf8_lines utf16_to_utf8 bytes_to_utf8).

(** With no terminated line left behind the offset, a call on the open
    stream finds nothing and changes nothing. *)
Lemma open_nothing_left e bytes byte_offset :
  code_unit e = char ->
  0 <= byte_offset <= bytes_size bytes ->
  first_line [] (skipn (Z.to_nat byte_offset) bytes) = None ->
  next_lines false (mk_encoded_buffer e bytes byte_offset)
  = Done ([], mk_encoded_buffer e bytes byte_offset).
Proof.
  intros He Hb Hn. unfold next_utf8_lines. rewrite loop_S.
  cbn [e_ bytes_ last_]. rewrite He.
  pose proof (next_line_list bytes false byte_offset Hb) as Hl.
  rewrite Hn in Hl. destruct Hl as (line & Hl & Hv).
  rewrite Hl. cbn [bind]. cbv zeta. now rewrite Hv.
Qed.

Lemma open_lines_list e bytes byte_offset :
  code_unit e = char ->
  0 <= byte_offset <= bytes_size bytes ->
  exists b',
    next_lines false (mk_encoded_buffer e bytes byte_offset)
    = Done (map (in_utf8 bytes_to_utf8 e)
              (terminated_lines [] (skipn (Z.to_nat byte_offset) bytes)), b') /\
    e_ b' = e /\ bytes_ b' = bytes /\
    byte_offset <= last_ b' <= bytes_size bytes /\
    first_line [] (skipn (Z.to_nat (last_ b')) bytes) = None.
Proof.
  intros He Hb.
  destruct (next_utf8_lines_list utf16_to_utf8 bytes_to_utf8 false e bytes
              byte_offset He Hb) as (u & Hn & H1 & H2 & H3 & H4);
    [discriminate|].
  rewrite app_nil_r in Hn. eexists. split; [exact Hn|].
  cbn [e_ bytes_ last_]. rewrite H1. repeat split; auto; lia.
Qed.

End DecoderHelpers.

Section DecoderProperties.

Variable utf16_to_utf8 : list Z -> list byte.
Variable bytes_to_utf8 : encodings -> list byte -> list byte.

Local Abbreviation next_utf8_lines :=
  (next_utf8_lines utf16_to_utf8 bytes_to_utf8).
Local Abbreviation run := (run utf16_to_utf8 bytes_to_utf8).
Local Abbreviation in_utf8 := (in_utf8 bytes_to_utf8).
Local Abbreviation final_line := (final_line bytes_to_utf8).

(** X1. [MOB_ASSERT(byte_offset <= bytes.size())] and where a call of
    [next_line] starts, with the call followed into the memory behind the
    buffer.  A call that starts well placed returns, whatever lies behind
    the buffer: it reads the buffer only, and the assertion holds when it
    is reached.  A call that starts behind the [end] of its scan never
    returns, whatever the memory holds and however long it runs: its loop
    can only be left with [p] behind the buffer, and then the assertion
    fails. *)
Theorem assertion_fails_behind_scan_end m C finished bytes byte_offset :
  holds m bytes ->
  (well_placed C bytes byte_offset ->
   exists r,
     next_line C finished bytes byte_offset = Done r /\
     forall fuel, (length bytes < fuel)%nat ->
       next_line_in m fuel C finished bytes byte_offset = Done r) /\
  (usable_size C bytes < byte_offset ->
   forall fuel,
     (forall r, next_line_in m fuel C finished bytes byte_offset <> Done r) /\
     (forall p line,
         scan_in m fuel C (usable_size C bytes) byte_offset byte_offset
           no_line = Done (p, line) ->
         bytes_size bytes < p /\
         next_line_in m fuel C finished bytes byte_offset
           = Fault assertion_failed)).
Proof.
  intros Hm. split.
  - intros Hw.
    destruct (next_line_total C finished bytes byte_offset Hw)
      as (line & off & H & _).
    exists (line, off). split; [exact H|].
    intros fuel Hf. now apply (next_line_in_agrees m).
  - intros Hb fuel.
    destruct (next_line_in_behind m fuel C finished bytes byte_offset Hb)
      as [H1 H2].
    split; [exact H1|]. intros p line H.
    destruct (H2 p line H) as (_ & H3 & H4). now split.
Qed.

(** X2. Under the encodings scanned by bytes no sequence of [add] and
    [next_utf8_lines] calls on a new buffer reads outside the buffer: every
    call returns, with the offset inside the buffer. *)
Theorem byte_encodings_stay_in_bounds e bytes0 cs :
  code_unit e = char ->
  exists ls b,
    run (new_buffer e bytes0) cs = Done (ls, b) /\
    0 <= last_ b <= bytes_size (bytes_ b).
Proof.
  intros He.
  destruct (run_total utf16_to_utf8 bytes_to_utf8 (new_buffer e bytes0) cs)
    as (ls & b & Hr & Hwp).
  - now left.
  - apply well_placed_new.
  - exists ls, b. split; [exact Hr|].
    apply run_Done in Hr as (_ & _ & Hr & _). apply Hr.
    cbn [new_buffer last_ bytes_]. unfold bytes_size. lia.
Qed.

(** X3. Under UTF-16, as long as [finished] is false, no sequence of
    calls on a new buffer reads outside the buffer, and the offset stays
    even and at or before the last whole code unit: a dangling byte is
    never consumed. *)
Theorem utf16_open_stream_in_bounds bytes0 cs :
  ~ In (call_next_utf8_lines true) cs ->
  exists ls b,
    run (new_buffer utf16 bytes0) cs = Done (ls, b) /\
    0 <= last_ b <= usable_size wchar_t (bytes_ b) /\
    last_ b mod 2 = 0.
Proof. apply utf16_scanning_in_bounds. Qed.

(** X4. Under UTF-16 the final flush of a buffer that still holds
    unterminated text reads outside the buffer: the view it builds has as
    many code units as there are bytes left. *)
Theorem utf16_flush_of_unterminated_text b :
  e_ b = utf16 ->
  bytes_size (bytes_ b) < size_t_max ->
  next_utf8_lines false b = Done ([], b) ->
  last_ b < usable_size wchar_t (bytes_ b) ->
  next_utf8_lines true b = Fault out_of_bounds.
Proof. apply utf16_unterminated_tail_out_of_bounds. Qed.

(** X5. [next_utf8_lines] leaves the bytes and the encoding as they are,
    and with [finished] it leaves the offset at the end of the buffer:
    everything is consumed. *)
Theorem flush_consumes_everything b ls b' :
  next_utf8_lines true b = Done (ls, b') ->
  e_ b' = e_ b /\ bytes_ b' = bytes_ b /\
  last_ b' = bytes_size (bytes_ b').
Proof.
  intros H. apply next_utf8_lines_Done in H as (H1 & H2 & _ & _ & _ & H6).
  repeat split; auto. rewrite H2. now apply H6.
Qed.

(** X6. What [next_utf8_lines(false, f)] hands to [f] under an encoding
    scanned by bytes: the lines of the unconsumed bytes that have a
    separator behind them, in order, empty ones left out. *)
Theorem open_lines_are_terminated_lines b :
  code_unit (e_ b) = char ->
  0 <= last_ b <= bytes_size (bytes_ b) ->
  lines_of (next_utf8_lines false b)
  = Done (map (in_utf8 (e_ b))
            (terminated_lines [] (skipn (Z.to_nat (last_ b)) (bytes_ b)))).
Proof.
  destruct b as [e bytes last]. cbn [e_ bytes_ last_]. intros He Hb.
  destruct (open_lines_list utf16_to_utf8 bytes_to_utf8 e bytes last He Hb)
    as (b' & Hn & _).
  now rewrite Hn.
Qed.

(** X7. While the stream is open the chunks do not show: the lines taken
    after each chunk are, together, the lines taken after the whole. *)
Theorem chunking_does_not_show_while_open e chunks :
  code_unit e = char ->
  lines_of (run (new_buffer e []) (fed_open chunks))
  = lines_of (run (new_buffer e [])
                [call_add (concat chunks); call_next_utf8_lines false]).
Proof.
  intros He.
  rewrite (open_chunking_invariance utf16_to_utf8 bytes_to_utf8 e chunks He).
  pose proof (open_chunking_invariance utf16_to_utf8 bytes_to_utf8 e
                [concat chunks] He) as H.
  cbn [fed_open flat_map concat app] in H. rewrite app_nil_r in H.
  now rewrite H.
Qed.

(** X8. With the final flush the chunks show in the last line only, and
    there only in the separators it begins with. *)
Theorem chunking_shows_in_last_line_only e chunks :
  code_unit e = char ->
  bytes_size (concat chunks) < size_t_max ->
  exists u u',
    lines_of (run (new_buffer e []) (fed_in_chunks chunks))
    = Done (map (in_utf8 e) (terminated_lines [] (concat chunks))
            ++ final_line e u) /\
    lines_of (run (new_buffer e []) (fed_at_once (concat chunks)))
    = Done (map (in_utf8 e) (terminated_lines [] (concat chunks))
            ++ final_line e u') /\
    drop_separators u = rev (pending [] (concat chunks)) /\
    drop_separators u' = rev (pending [] (concat chunks)).
Proof. apply chunking_up_to_last_line. Qed.

(** X9. A buffer of separators only, under an encoding scanned by bytes:
    while the stream is open nothing is handed to [f]; the final flush
    hands over the separators themselves, as one line. *)
Theorem separators_only_stream e bytes :
  code_unit e = char ->
  Forall separator_byte bytes -> bytes <> [] ->
  bytes_size bytes < size_t_max ->
  next_utf8_lines false (new_buffer e bytes) = Done ([], new_buffer e bytes) /\
  next_utf8_lines true (new_buffer e bytes)
  = Done ([in_utf8 e bytes], mk_encoded_buffer e bytes (bytes_size bytes)).
Proof.
  intros He Hall Hne Hmax. split.
  - now apply separators_only_open.
  - now apply separators_only_closed.
Qed.

(** X10. After a final flush on a buffer of whole code units (any buffer
    under the encodings scanned by bytes, an even number of bytes under
    UTF-16) every further call hands over nothing and changes nothing. *)
Theorem nothing_left_after_flush b ls b' finished :
  usable_size (code_unit (e_ b)) (bytes_ b) = bytes_size (bytes_ b) ->
  next_utf8_lines true b = Done (ls, b') ->
  next_utf8_lines finished b' = Done ([], b').
Proof. apply flushed_is_at_rest. Qed.

(** X11. No line handed over while the stream is open holds a separator:
    under an encoding scanned by bytes the lines are the conversions of
    byte strings that are not empty and have no ['\n'] and no ['\r']. *)
Theorem open_lines_have_no_separator b ls b' :
  code_unit (e_ b) = char ->
  next_utf8_lines false b = Done (ls, b') ->
  exists raw,
    ls = map (in_utf8 (e_ b)) raw /\
    Forall (fun l => l <> [] /\
                     Forall (fun c => is_separator_byte c = false) l) raw.
Proof.
  intros He H.
  pose proof (next_utf8_lines_Done _ _ _ _ _ _ H) as (_ & _ & Hb & Hb' & _).
  destruct b as [e bytes last]. cbn [e_ bytes_ last_] in *.
  destruct (open_lines_list utf16_to_utf8 bytes_to_utf8 e bytes last He)
    as (b2 & Hn & _); [lia|].
  rewrite Hn in H. injection H as <- _.
  eexists. split; [reflexivity|]. apply terminated_lines_clean. constructor.
Qed.

(** X12. On the open stream a second call right after the first finds
    nothing and leaves the offset where it is. *)
Theorem open_call_twice b ls b' :
  code_unit (e_ b) = char ->
  next_utf8_lines false b = Done (ls, b') ->
  next_utf8_lines false b' = Done ([], b').
Proof.
  intros He H.
  pose proof (next_utf8_lines_Done _ _ _ _ _ _ H) as (_ & _ & Hb & Hb' & _).
  destruct b as [e bytes last]. cbn [e_ bytes_ last_] in *.
  destruct (open_lines_list utf16_to_utf8 bytes_to_utf8 e bytes last He)
    as (b2 & Hn & H1 & H2 & H3 & H4); [lia|].
  rewrite Hn in H. injection H as _ <-.
  destruct b2 as [e2 bytes2 last2]. cbn [e_ bytes_ last_] in *. subst e2 bytes2.
  apply open_nothing_left; auto. lia.
Qed.

(** X13. A line found before the end of the stream lies inside the
    buffer, at or behind the old offset, and the new offset is behind the
    line and at least one separator, and inside the buffer too. *)
Theorem found_line_inside_buffer C bytes byte_offset line byte_offset' :
  next_line C false bytes byte_offset = Done (line, byte_offset') ->
  empty line = false ->
  0 <= byte_offset <= data line /\ 0 < count line /\
  data line + sizeof C * count line + sizeof C <= byte_offset' /\
  byte_offset' <= bytes_size bytes.
Proof.
  intros H He. apply next_line_Done in H as [H0 Hr].
  destruct Hr as [? ? ? ? ?|Hf|? Hv]; [|discriminate|congruence].
  repeat split; auto; lia.
Qed.

End DecoderProperties.

(** Witnesses. *)

Lemma assertion_fails_behind_scan_end_witness :
  holds (around [x61] [x00; x00; x0a; x00; x00; x00]) [x61] /\
  (exists r,
      next_line wchar_t false [x61] 0 = Done r /\
      forall fuel, (length [x61] < fuel)%nat ->
        next_line_in (around [x61] [x00; x00; x0a; x00; x00; x00]) fuel
          wchar_t false [x61] 0 = Done r) /\
  next_line_in (around [x61] [x00; x00; x0a; x00; x00; x00]) 3 wchar_t false
    [x61] 1 = Fault assertion_failed.
Proof.
  split; [apply around_holds|]. split.
  - apply (assertion_fails_behind_scan_end
             (around [x61] [x00; x00; x0a; x00; x00; x00]) wchar_t false
             [x61] 0 (around_holds _ _)).
    split; [vm_compute; split; discriminate|reflexivity].
  - apply (proj2 (assertion_fails_behind_scan_end
                    (around [x61] [x00; x00; x0a; x00; x00; x00]) wchar_t
                    false [x61] 1 (around_holds _ _))
             eq_refl 3%nat)
      with (p := 5) (line := mk_view 1 1).
    vm_compute. reflexivity.
Defined.

Lemma byte_encodings_stay_in_bounds_witness :
  code_unit acp = char /\
  exists ls b,
    run low_bytes same_bytes (new_buffer acp (text "a"))
      [call_add [lf]; call_next_utf8_lines true] = Done (ls, b) /\
    0 <= last_ b <= bytes_size (bytes_ b).
Proof.
  split; [reflexivity|].
  apply (byte_encodings_stay_in_bounds low_bytes same_bytes acp (text "a")
           [call_add [lf]; call_next_utf8_lines true]).
  reflexivity.
Defined.

Lemma utf16_open_stream_in_bounds_witness :
  exists ls b,
    run low_bytes same_bytes (new_buffer utf16 [x61; x00; x62])
      [call_next_utf8_lines false; call_add [x00; x0a]] = Done (ls, b) /\
    0 <= last_ b <= usable_size wchar_t (bytes_ b) /\
    last_ b mod 2 = 0.
Proof.
  apply (utf16_open_stream_in_bounds low_bytes same_bytes [x61; x00; x62]
           [call_next_utf8_lines false; call_add [x00; x0a]]).
  cbn [In]. intros [H|[H|[]]]; discriminate H.
Defined.

Lemma utf16_flush_of_unterminated_text_witness :
  next_utf8_lines low_bytes same_bytes false
    (mk_encoded_buffer utf16 [x61; x00; x62; x00] 0)
  = Done ([], mk_encoded_buffer utf16 [x61; x00; x62; x00] 0) /\
  next_utf8_lines low_bytes same_bytes true
    (mk_encoded_buffer utf16 [x61; x00; x62; x00] 0)
  = Fault out_of_bounds.
Proof.
  split; [vm_compute; reflexivity|].
  apply (utf16_flush_of_unterminated_text low_bytes same_bytes
           (mk_encoded_buffer utf16 [x61; x00; x62; x00] 0));
    vm_compute; reflexivity.
Defined.

Lemma flush_consumes_everything_witness :
  next_utf8_lines low_bytes same_bytes true
    (new_buffer utf8 (text "a" ++ [lf] ++ text "b"))
  = Done ([text "a"; text "b"],
          mk_encoded_buffer utf8 (text "a" ++ [lf] ++ text "b") 3) /\
  last_ (mk_encoded_buffer utf8 (text "a" ++ [lf] ++ text "b") 3)
  = bytes_size (text "a" ++ [lf] ++ text "b").
Proof.
  split; [vm_compute; reflexivity|].
  apply (flush_consumes_everything low_bytes same_bytes
           (new_buffer utf8 (text "a" ++ [lf] ++ text "b"))
           [text "a"; text "b"]
           (mk_encoded_buffer utf8 (text "a" ++ [lf] ++ text "b") 3)).
  vm_compute. reflexivity.
Defined.

Lemma open_lines_are_terminated_lines_witness :
  lines_of (next_utf8_lines low_bytes same_bytes false
              (mk_encoded_buffer utf8
                 (text "a" ++ [cr; lf] ++ text "b" ++ [lf] ++ text "c") 1))
  = Done (map (in_utf8 same_bytes utf8)
            (terminated_lines []
               (skipn 1 (text "a" ++ [cr; lf] ++ text "b" ++ [lf] ++ text "c")))).
Proof.
  apply (open_lines_are_terminated_lines low_bytes same_bytes
           (mk_encoded_buffer utf8
              (text "a" ++ [cr; lf] ++ text "b" ++ [lf] ++ text "c") 1)).
  - reflexivity.
  - vm_compute. split; discriminate.
Defined.

Lemma chunking_does_not_show_while_open_witness :
  lines_of (run low_bytes same_bytes (new_buffer oem [])
              (fed_open [text "a" ++ [cr]; [lf] ++ text "b" ++ [lf]]))
  = lines_of (run low_bytes same_bytes (new_buffer oem [])
                [call_add (concat [text "a" ++ [cr]; [lf] ++ text "b" ++ [lf]]);
                 call_next_utf8_lines false]).
Proof.
  apply (chunking_does_not_show_while_open low_bytes same_bytes oem
           [text "a" ++ [cr]; [lf] ++ text "b" ++ [lf]]).
  reflexivity.
Defined.

Lemma chunking_shows_in_last_line_only_witness :
  exists u u',
    lines_of (run low_bytes same_bytes (new_buffer utf8 [])
                (fed_in_chunks [text "a" ++ [cr]; [lf] ++ text "b"]))
    = Done (map (in_utf8 same_bytes utf8)
              (terminated_lines [] (concat [text "a" ++ [cr]; [lf] ++ text "b"]))
            ++ final_line same_bytes utf8 u) /\
    lines_of (run low_bytes same_bytes (new_buffer utf8 [])
                (fed_at_once (concat [text "a" ++ [cr]; [lf] ++ text "b"])))
    = Done (map (in_utf8 same_bytes utf8)
              (terminated_lines [] (concat [text "a" ++ [cr]; [lf] ++ text "b"]))
            ++ final_line same_bytes utf8 u') /\
    drop_separators u
    = rev (pending [] (concat [text "a" ++ [cr]; [lf] ++ text "b"])) /\
    drop_separators u'
    = rev (pending [] (concat [text "a" ++ [cr]; [lf] ++ text "b"])).
Proof.
  apply (chunking_shows_in_last_line_only low_bytes same_bytes utf8
           [text "a" ++ [cr]; [lf] ++ text "b"]).
  - reflexivity.
  - vm_compute. reflexivity.
Defined.

Lemma separators_only_stream_witness :
  next_utf8_lines low_bytes same_bytes false (new_buffer utf8 [lf; cr; lf])
  = Done ([], new_buffer utf8 [lf; cr; lf]) /\
  next_utf8_lines low_bytes same_bytes true (new_buffer utf8 [lf; cr; lf])
  = Done ([in_utf8 same_bytes utf8 [lf; cr; lf]],
          mk_encoded_buffer utf8 [lf; cr; lf] (bytes_size [lf; cr; lf])).
Proof.
  apply (separators_only_stream low_bytes same_bytes utf8 [lf; cr; lf]).
  - reflexivity.
  - repeat constructor.
  - discriminate.
  - vm_compute. reflexivity.
Defined.

Lemma nothing_left_after_flush_witness :
  next_utf8_lines low_bytes same_bytes true (new_buffer utf16 [x61; x00; x0a; x00])
  = Done ([low_bytes [97]], mk_encoded_buffer utf16 [x61; x00; x0a; x00] 4) /\
  next_utf8_lines low_bytes same_bytes false
    (mk_encoded_buffer utf16 [x61; x00; x0a; x00] 4)
  = Done ([], mk_encoded_buffer utf16 [x61; x00; x0a; x00] 4).
Proof.
  split; [vm_compute; reflexivity|].
  apply (nothing_left_after_flush low_bytes same_bytes
           (new_buffer utf16 [x61; x00; x0a; x00]) [low_bytes [97]]
           (mk_encoded_buffer utf16 [x61; x00; x0a; x00] 4) false);
    vm_compute; reflexivity.
Defined.

Lemma open_lines_have_no_separator_witness :
  exists raw,
    [text "ab"; text "c"] = map (in_utf8 same_bytes utf8) raw /\
    Forall (fun l => l <> [] /\
                     Forall (fun c => is_separator_byte c = false) l) raw.
Proof.
  apply (open_lines_have_no_separator low_bytes same_bytes
           (new_buffer utf8 (text "ab" ++ [cr; lf] ++ text "c" ++ [lf] ++ text "d"))
           [text "ab"; text "c"]
           (mk_encoded_buffer utf8
              (text "ab" ++ [cr; lf] ++ text "c" ++ [lf] ++ text "d") 6)).
  - reflexivity.
  - vm_compute. reflexivity.
Defined.

Lemma open_call_twice_witness :
  next_utf8_lines low_bytes same_bytes false
    (mk_encoded_buffer utf8 (text "ab" ++ [cr; lf] ++ text "c") 4)
  = Done ([], mk_encoded_buffer utf8 (text "ab" ++ [cr; lf] ++ text "c") 4).
Proof.
  apply (open_call_twice low_bytes same_bytes
           (new_buffer utf8 (text "ab" ++ [cr; lf] ++ text "c"))
           [text "ab"]
           (mk_encoded_buffer utf8 (text "ab" ++ [cr; lf] ++ text "c") 4)).
  - reflexivity.
  - vm_compute. reflexivity.
Defined.

Lemma found_line_inside_buffer_witness :
  next_line wchar_t false [x0a; x00; x61; x00; x0d; x00; x0a; x00; x62] 0
  = Done (mk_view 2 1, 8) /\
  (0 <= 0 <= 2 /\ 0 < 1 /\ 2 + 2 * 1 + 2 <= 8 /\ 8 <= 9).
Proof.
  split; [vm_compute; reflexivity|].
  apply (found_line_inside_buffer wchar_t
           [x0a; x00; x61; x00; x0d; x00; x0a; x00; x62] 0 (mk_view 2 1) 8).
  - vm_compute. reflexivity.
  - reflexivity.
Defined.

(** * The version of python *)

(** ** The matcher *)

Lemma find_app (A : Type) (g : A -> bool) (l1 l2 : list A) :
  find g (l1 ++ l2) =
  match find g l1 with
  | Some x => Some x
  | None => find g l2
  end.
Proof.
  induction l1 as [|x l1 IH]; [reflexivity|].
  cbn [app find]. destruct (g x); [reflexivity|exact IH].
Qed.

Lemma flat_map_map (A B C : Type) (f : B -> list C) (g : A -> B) (l : list A) :
  flat_map f (map g l) = flat_map (fun x => f (g x)) l.
Proof.
  induction l as [|x l IH]; [reflexivity|]. cbn [map flat_map]. now rewrite IH.
Qed.

Lemma matched_app (a rest : list byte) : matched (a ++ rest) rest = a.
Proof.
  unfold matched. rewrite length_app.
  replace (length a + length rest - length rest)%nat with (length a) by lia.
  rewrite firstn_app, Nat.sub_diag, firstn_all. cbn [firstn]. apply app_nil_r.
Qed.

Lemma digit_is_not_v c : is_digit c = true -> Byte.eqb "v" c = false.
Proof. destruct c; try reflexivity; discriminate. Qed.

Lemma digit_is_not_dot c : is_digit c = true -> Byte.eqb "." c = false.
Proof. destruct c; try reflexivity; discriminate. Qed.

Lemma eqb_byte_eq c c' : Byte.eqb c c' = true -> c = c'.
Proof. apply Byte.byte_dec_bl. Qed.

(** A run of the class in front of something that does not go on with the
    class: whatever comes behind the quantifier and cannot succeed on a
    shorter run, sees the whole run taken. *)
Lemma find_after_plus (A : Type) (g : A -> bool) (f : list byte -> list A)
    (p : byte -> bool) (ds rest : list byte) :
  ds <> [] -> Forall (fun c => p c = true) ds ->
  plus_rests p rest = [] ->
  (forall c s', p c = true -> find g (f (c :: s')) = None) ->
  find g (flat_map f (plus_rests p (ds ++ rest))) = find g (f rest).
Proof.
  intros Hne Hall Hrest Hf. induction ds as [|c ds IH]; [congruence|].
  inversion Hall as [|? ? Hc Hds]; subst.
  cbn [app plus_rests]. rewrite Hc, flat_map_app, find_app.
  cbn [flat_map]. rewrite app_nil_r.
  destruct ds as [|c' ds'].
  - cbn [app]. rewrite Hrest. reflexivity.
  - rewrite IH by (auto; discriminate).
    destruct (find g (f rest)); [reflexivity|].
    inversion Hds; subst. cbn [app]. now apply Hf.
Qed.

Lemma flat_map_after_plus (A : Type) (f : list byte -> list A)
    (p : byte -> bool) (ds rest : list byte) :
  ds <> [] -> Forall (fun c => p c = true) ds ->
  plus_rests p rest = [] ->
  (forall c s', p c = true -> f (c :: s') = []) ->
  flat_map f (plus_rests p (ds ++ rest)) = f rest.
Proof.
  intros Hne Hall Hrest Hf. induction ds as [|c ds IH]; [congruence|].
  inversion Hall as [|? ? Hc Hds]; subst.
  cbn [app plus_rests]. rewrite Hc, flat_map_app.
  cbn [flat_map]. rewrite app_nil_r.
  destruct ds as [|c' ds'].
  - cbn [app]. rewrite Hrest. reflexivity.
  - rewrite IH by (auto; discriminate).
    inversion Hds; subst. cbn [app]. rewrite Hf by assumption.
    apply app_nil_r.
Qed.

Lemma plus_rests_all p s :
  s <> [] -> Forall (fun c => p c = true) s ->
  exists l, plus_rests p s = [] :: l.
Proof.
  induction s as [|c s IH]; [congruence|]. intros _ Hall.
  inversion Hall as [|? ? Hc Hs]; subst. cbn [plus_rests]. rewrite Hc.
  destruct s as [|c' s']; [cbn; eauto|].
  destruct IH as [l Hl]; [discriminate|assumption|].
  rewrite Hl. cbn [app]. eauto.
Qed.

Lemma in_plus_rests p s s1 :
  In s1 (plus_rests p s) ->
  exists ds, ds <> [] /\ Forall (fun c => p c = true) ds /\ s = ds ++ s1.
Proof.
  revert s1. induction s as [|c s IH]; intros s1; [intros []|].
  cbn [plus_rests]. destruct (p c) eqn:Hc; [|intros []].
  intros H. apply in_app_or in H as [H|[<-|[]]].
  - destruct (IH _ H) as (ds & _ & Hall & ->).
    exists (c :: ds). repeat split; [discriminate|now constructor].
  - exists [c]. repeat split; [discriminate|]. now repeat constructor.
Qed.

(** ** The regular expression of the version, piece by piece *)

Lemma version_re_pieces :
  version_re = re_seq (re_opt (re_char "v")) major_re.
Proof. reflexivity. Qed.

Lemma seq_group_plus n p k m s :
  matches (re_seq (re_group n (re_plus p)) k) m s =
  flat_map (fun s1 => matches k (capture n (matched s s1) m) s1)
           (plus_rests p s).
Proof. cbn [matches]. rewrite map_map, flat_map_map. reflexivity. Qed.

Lemma plus_rests_dot x : plus_rests is_digit ("."%byte :: x) = [].
Proof. reflexivity. Qed.

(** The patch, with its dot, when there is one. *)
Lemma find_patch m tail c :
  (c = [] /\ tail = []) \/ (digits c /\ tail = "."%byte :: c) ->
  find nothing_left (matches patch_re m tail)
  = Some (match c with [] => m | _ => capture 3 c m end, []).
Proof.
  intros [[-> ->]|[[Hne Hall] ->]]; [reflexivity|].
  unfold patch_re. cbn [matches]. cbn [Byte.eqb flat_map fst snd].
  change (Byte.eqb "." ".") with true. cbv iota. cbn [flat_map fst snd].
  rewrite app_nil_r.
  destruct (plus_rests_all is_digit c Hne Hall) as [l Hl]. rewrite Hl.
  cbn [map app find nothing_left snd fst]. unfold matched. cbn [length].
  rewrite Nat.sub_0_r, firstn_all.
  destruct c; [congruence|reflexivity].
Qed.

Lemma find_minor m b tail c :
  digits b ->
  (c = [] /\ tail = []) \/ (digits c /\ tail = "."%byte :: c) ->
  find nothing_left (matches minor_re m (b ++ tail))
  = Some (match c with
          | [] => capture 2 b m
          | _ => capture 3 c (capture 2 b m)
          end, []).
Proof.
  intros [Hne Hall] Htail. unfold minor_re. rewrite seq_group_plus.
  rewrite find_after_plus; auto.
  - rewrite matched_app. now apply find_patch.
  - destruct Htail as [[_ ->]|[_ ->]]; reflexivity.
  - intros d s' Hd. unfold patch_re. cbn [matches].
    rewrite (digit_is_not_dot d Hd). reflexivity.
Qed.

Lemma matches_major m a x :
  digits a ->
  matches major_re m (a ++ "."%byte :: x)
  = matches minor_re (capture 1 a m) x.
Proof.
  intros [Hne Hall]. unfold major_re. rewrite seq_group_plus.
  rewrite flat_map_after_plus; auto.
  - rewrite matched_app. cbn [matches].
    change (Byte.eqb "." ".") with true. cbv iota.
    cbn [flat_map fst snd]. apply app_nil_r.
  - intros d s' Hd. cbn [matches]. rewrite (digit_is_not_dot d Hd). reflexivity.
Qed.

Lemma matches_major_not_digit m c s :
  is_digit c = false -> matches major_re m (c :: s) = [].
Proof.
  intros Hc. unfold major_re. rewrite seq_group_plus.
  cbn [plus_rests]. now rewrite Hc.
Qed.

Lemma matches_version_re m s :
  matches version_re m s =
  match s with
  | c :: s' => if Byte.eqb "v" c then matches major_re m s' else matches major_re m s
  | [] => []
  end.
Proof.
  rewrite version_re_pieces. cbn [matches]. rewrite flat_map_app.
  cbn [flat_map fst snd]. rewrite app_nil_r.
  destruct s as [|c s']; [reflexivity|].
  destruct (Byte.eqb "v" c) eqn:Ev; cbn [flat_map fst snd].
  - apply eqb_byte_eq in Ev. subst c.
    rewrite (matches_major_not_digit m "v" s') by reflexivity.
    now rewrite !app_nil_r.
  - reflexivity.
Qed.

(** ** What a match says about the string *)

Lemma in_group_plus n m s m' s1 :
  In (m', s1) (matches (re_group n (re_plus is_digit)) m s) ->
  exists ds, digits ds /\ s = ds ++ s1 /\ m' = capture n ds m.
Proof.
  cbn [matches]. rewrite map_map. intros H.
  apply in_map_iff in H as (s2 & [= <- <-] & H). cbn [fst snd].
  apply in_plus_rests in H as (ds & Hne & Hall & ->).
  exists ds. repeat split; auto. now rewrite matched_app.
Qed.

Lemma in_char c m s m' s1 :
  In (m', s1) (matches (re_char c) m s) -> s = c :: s1 /\ m' = m.
Proof.
  cbn [matches]. destruct s as [|c' s']; [intros []|].
  destruct (Byte.eqb c c') eqn:E; [|intros []].
  apply eqb_byte_eq in E. subst c'. intros [[= -> ->]|[]]. auto.
Qed.

Lemma in_patch m tail m' :
  In (m', []) (matches patch_re m tail) ->
  (tail = [] /\ m' = m) \/
  exists c, digits c /\ tail = "."%byte :: c /\ m' = capture 3 c m.
Proof.
  unfold patch_re. cbn [matches]. intros H.
  apply in_app_or in H as [H|[[= -> ->]|[]]]; [|now left].
  right. apply in_flat_map in H as ([m1 s1] & H1 & H2). cbn [fst snd] in H2.
  apply in_char in H1 as [-> ->].
  apply in_group_plus in H2 as (c & Hc & -> & ->).
  exists c. rewrite app_nil_r. auto.
Qed.

Lemma in_major m s m' :
  In (m', []) (matches major_re m s) ->
  exists a b c,
    digits a /\ digits b /\ (c = [] \/ digits c) /\
    s = a ++ "."%byte :: b
          ++ match c with [] => [] | _ => "."%byte :: c end /\
    m' = match c with
         | [] => capture 2 b (capture 1 a m)
         | _ => capture 3 c (capture 2 b (capture 1 a m))
         end.
Proof.
  unfold major_re. intros H.
  change (matches (re_seq (re_group 1 (re_plus is_digit))
                     (re_seq (re_char ".") minor_re)) m s)
    with (flat_map (fun x => matches (re_seq (re_char ".") minor_re)
                               (fst x) (snd x))
            (matches (re_group 1 (re_plus is_digit)) m s)) in H.
  apply in_flat_map in H as ([m1 s1] & H1 & H2). cbn [fst snd] in H2.
  apply in_group_plus in H1 as (a & Ha & -> & ->).
  change (matches (re_seq (re_char ".") minor_re) (capture 1 a m) s1)
    with (flat_map (fun x => matches minor_re (fst x) (snd x))
            (matches (re_char ".") (capture 1 a m) s1)) in H2.
  apply in_flat_map in H2 as ([m2 s2] & H2 & H3). cbn [fst snd] in H3.
  apply in_char in H2 as [-> ->].
  unfold minor_re in H3.
  change (matches (re_seq (re_group 2 (re_plus is_digit)) patch_re)
            (capture 1 a m) s2)
    with (flat_map (fun x => matches patch_re (fst x) (snd x))
            (matches (re_group 2 (re_plus is_digit)) (capture 1 a m) s2)) in H3.
  apply in_flat_map in H3 as ([m3 s3] & H3 & H4). cbn [fst snd] in H4.
  apply in_group_plus in H3 as (b & Hb & -> & ->).
  apply in_patch in H4 as [[-> ->]|(c & Hc & -> & ->)].
  - exists a, b, []. repeat split; auto; try apply Ha; try apply Hb.
  - exists a, b, c. destruct Hc as [Hne Hall].
    destruct c as [|c0 c']; [congruence|].
    repeat split; auto; try apply Ha; try apply Hb; try discriminate.
    right. split; [discriminate|assumption].
Qed.

(** ** [parsed_version] and the names made of it *)

Lemma text_dot : text "." = ["."%byte].
Proof. reflexivity. Qed.

Lemma text_v : text "v" = ["v"%byte].
Proof. reflexivity. Qed.

Lemma parsed_version_of_parts (with_v : bool) a b c :
  digits a -> digits b -> c = [] \/ digits c ->
  parsed_version
    ((if with_v then text "v" else []) ++ a ++ text "." ++ b
     ++ match c with [] => [] | _ => text "." ++ c end)
  = Some (mk_version_info a b c).
Proof.
  intros Ha Hb Hc. unfold parsed_version, regex_match.
  rewrite matches_version_re, text_dot, text_v.
  assert (find nothing_left
            (matches major_re no_captures
               (a ++ "."%byte :: b
                ++ match c with [] => [] | _ => "."%byte :: c end))
          = Some (match c with
                  | [] => capture 2 b (capture 1 a no_captures)
                  | _ => capture 3 c (capture 2 b (capture 1 a no_captures))
                  end, [])) as Hfind.
  { rewrite matches_major by assumption.
    apply find_minor; [assumption|].
    destruct Hc as [->|Hc]; [now left|right].
    destruct c; [destruct Hc; congruence|auto]. }
  destruct Ha as [Hne Hall].
  destruct a as [|d a']; [congruence|]. inversion Hall; subst.
  cbn [app] in Hfind.
  destruct with_v; cbn [app].
  - change (Byte.eqb "v" "v") with true. cbv iota.
    rewrite Hfind. cbn [fst]. destruct c; reflexivity.
  - rewrite (digit_is_not_v d) by assumption.
    rewrite Hfind. cbn [fst]. destruct c; reflexivity.
Qed.

Lemma parsed_version_parts s v :
  parsed_version s = Some v ->
  digits (major v) /\ digits (minor v) /\
  (patch v = [] \/ digits (patch v)) /\
  exists with_v : bool,
    s = (if with_v then text "v" else []) ++ major v ++ text "." ++ minor v
        ++ match patch v with [] => [] | _ => text "." ++ patch v end.
Proof.
  unfold parsed_version, regex_match.
  destruct (find nothing_left (matches version_re no_captures s))
    as [[m rest]|] eqn:Ef; [|discriminate].
  intros [= <-]. apply find_some in Ef as [Hin Hrest].
  unfold nothing_left in Hrest. cbn [snd fst] in *.
  destruct rest; [|discriminate].
  rewrite matches_version_re in Hin.
  destruct s as [|c0 s']; [destruct Hin|].
  rewrite text_dot, text_v.
  destruct (Byte.eqb "v" c0) eqn:Ev.
  - apply eqb_byte_eq in Ev. subst c0.
    apply in_major in Hin as (a & b & c & Ha & Hb & Hc & -> & ->).
    cbn [major minor patch].
    destruct c as [|c1 c']; cbv [capture Nat.eqb]; cbn [app];
      repeat split; auto; try apply Ha; try apply Hb;
      try (now left); try (now exists true).
    all: destruct Hc as [Hc|Hc]; [discriminate|].
    all: try (right; split; [discriminate|apply Hc]).
  - apply in_major in Hin as (a & b & c & Ha & Hb & Hc & Hs & ->).
    cbn [major minor patch].
    destruct c as [|c1 c']; cbv [capture Nat.eqb]; cbn [app] in *;
      repeat split; auto; try apply Ha; try apply Hb;
      try (now left); try (now exists false).
    all: destruct Hc as [Hc|Hc]; [discriminate|].
    all: try (right; split; [discriminate|apply Hc]).
Qed.

(** X14. [parsed_version] takes every string made of an optional [v], a
    run of digits, a dot, a run of digits and, optionally, a dot and a run
    of digits; the three runs are the major, the minor and the patch (empty
    when there is none). *)
Theorem parsed_version_accepts (with_v : bool) a b c :
  digits a -> digits b -> c = [] \/ digits c ->
  parsed_version
    ((if with_v then text "v" else []) ++ a ++ text "." ++ b
     ++ match c with [] => [] | _ => text "." ++ c end)
  = Some (mk_version_info a b c).
Proof. apply parsed_version_of_parts. Qed.

(** X15. [parsed_version] takes no other string: when it does not bail
    out, major and minor are runs of digits that are not empty, the patch is
    empty or such a run, and the version is these behind an optional [v],
    with dots between them and nothing else. *)
Theorem parsed_version_shape s v :
  parsed_version s = Some v ->
  digits (major v) /\ digits (minor v) /\
  (patch v = [] \/ digits (patch v)) /\
  exists with_v : bool,
    s = (if with_v then text "v" else []) ++ major v ++ text "." ++ minor v
        ++ match patch v with [] => [] | _ => text "." ++ patch v end.
Proof. apply parsed_version_parts. Qed.

Lemma version_without_v_parts s v :
  parsed_version s = Some v ->
  version_without_v s
  = Some (major v ++ text "." ++ minor v
          ++ match patch v with [] => [] | _ => text "." ++ patch v end).
Proof.
  intros H. unfold version_without_v. rewrite H. f_equal.
  destruct (patch v); [now rewrite app_nil_r|now rewrite <- !app_assoc].
Qed.

(** X16. Where the version is well formed, [version_without_v] is the
    version as it was given, less the [v] it may begin with. *)
Theorem version_without_v_strips_v s v :
  parsed_version s = Some v ->
  version_without_v s = Some (without_leading_v s).
Proof.
  intros H. rewrite (version_without_v_parts s v H). f_equal.
  apply parsed_version_parts in H as ([Hne Hall] & _ & _ & [with_v ->]).
  destruct with_v.
  - rewrite text_v. reflexivity.
  - cbn [app]. destruct (major v) as [|d a']; [congruence|].
    inversion Hall; subst. cbn [app without_leading_v].
    now rewrite (digit_is_not_v d).
Qed.

(** X17. What [version_without_v] gives is a version again, with the same
    major, minor and patch, and [version_without_v] leaves it as it is. *)
Theorem version_without_v_reparses s v :
  parsed_version s = Some v ->
  exists w,
    version_without_v s = Some w /\
    parsed_version w = Some v /\
    version_without_v w = Some w.
Proof.
  intros H. pose proof (version_without_v_parts s v H) as Hw.
  apply parsed_version_parts in H as (Ha & Hb & Hc & _).
  eexists. split; [exact Hw|].
  assert (parsed_version
            (major v ++ text "." ++ minor v
             ++ match patch v with [] => [] | _ => text "." ++ patch v end)
          = Some v) as Hp.
  { pose proof (parsed_version_of_parts false (major v) (minor v) (patch v)
                  Ha Hb Hc) as Hp.
    cbn [app] in Hp. rewrite Hp. now destruct v. }
  split; [exact Hp|]. now rewrite (version_without_v_parts _ v Hp).
Qed.

(** X18. [version_for_dll] is made of digits only, two at least. *)
Theorem version_for_dll_digits s d :
  version_for_dll s = Some d ->
  Forall (fun c => is_digit c = true) d /\ (2 <= length d)%nat.
Proof.
  unfold version_for_dll.
  destruct (parsed_version s) as [v|] eqn:H; [|discriminate].
  intros [= <-].
  apply parsed_version_parts in H as ([Ha1 Ha2] & [Hb1 Hb2] & _).
  split; [now apply Forall_app|].
  rewrite length_app.
  destruct (major v); [congruence|]. destruct (minor v); [congruence|].
  cbn [length]. lia.
Qed.

(** X19. [version_for_dll] does not tell where the dot was: a digit moved
    from the end of the major to the front of the minor gives the same
    name. *)
Theorem version_for_dll_forgets_the_dot a x b :
  digits a -> is_digit x = true -> digits b ->
  version_for_dll (a ++ [x] ++ text "." ++ b)
  = version_for_dll (a ++ text "." ++ [x] ++ b).
Proof.
  intros Ha Hx Hb.
  assert (digits (a ++ [x])) as Hax.
  { destruct Ha as [Ha1 Ha2]. split.
    - intros H. now apply app_eq_nil in H as [_ H].
    - apply Forall_app. split; [assumption|now repeat constructor]. }
  assert (digits ([x] ++ b)) as Hxb.
  { destruct Hb as [Hb1 Hb2]. split; [discriminate|]. now constructor. }
  pose proof (parsed_version_of_parts false (a ++ [x]) b [] Hax Hb
                (or_introl eq_refl)) as H1.
  pose proof (parsed_version_of_parts false a ([x] ++ b) [] Ha Hxb
                (or_introl eq_refl)) as H2.
  cbv iota in H1, H2.
  replace ([] ++ (a ++ [x]) ++ text "." ++ b ++ [])
    with (a ++ [x] ++ text "." ++ b) in H1
    by (cbn [app]; now rewrite app_nil_r, <- app_assoc).
  replace ([] ++ a ++ text "." ++ ([x] ++ b) ++ [])
    with (a ++ text "." ++ [x] ++ b) in H2
    by (cbn [app]; now rewrite app_nil_r).
  unfold version_for_dll. rewrite H1, H2.
  cbn [major minor]. now rewrite <- app_assoc.
Qed.

Lemma parsed_version_accepts_witness :
  parsed_version (text "v3.8.1")
  = Some (mk_version_info (text "3") (text "8") (text "1")).
Proof.
  apply (parsed_version_accepts true (text "3") (text "8") (text "1")).
  - split; [discriminate|repeat constructor].
  - split; [discriminate|repeat constructor].
  - right. split; [discriminate|repeat constructor].
Defined.

Lemma parsed_version_shape_witness :
  parsed_version (text "v3.10")
  = Some (mk_version_info (text "3") (text "10") []) /\
  digits (text "3") /\ digits (text "10").
Proof.
  split; [vm_compute; reflexivity|].
  pose proof (parsed_version_shape (text "v3.10")
                (mk_version_info (text "3") (text "10") []) eq_refl)
    as (H1 & H2 & _).
  exact (conj H1 H2).
Defined.

Lemma version_without_v_strips_v_witness :
  version_without_v (text "v3.8.1") = Some (without_leading_v (text "v3.8.1")).
Proof.
  apply (version_without_v_strips_v (text "v3.8.1")
           (mk_version_info (text "3") (text "8") (text "1"))).
  vm_compute. reflexivity.
Defined.

Lemma version_without_v_reparses_witness :
  exists w,
    version_without_v (text "v3.8") = Some w /\
    parsed_version w = Some (mk_version_info (text "3") (text "8") []) /\
    version_without_v w = Some w.
Proof.
  apply (version_without_v_reparses (text "v3.8")
           (mk_version_info (text "3") (text "8") [])).
  vm_compute. reflexivity.
Defined.

Lemma version_for_dll_digits_witness :
  version_for_dll (text "v3.10.4") = Some (text "310") /\
  Forall (fun c => is_digit c = true) (text "310") /\
  (2 <= length (text "310"))%nat.
Proof.
  split; [vm_compute; reflexivity|].
  apply (version_for_dll_digits (text "v3.10.4") (text "310")).
  vm_compute. reflexivity.
Defined.

Lemma version_for_dll_forgets_the_dot_witness :
  version_for_dll (text "3" ++ [("1"%byte)] ++ text "." ++ text "0")
  = version_for_dll (text "3" ++ text "." ++ [("1"%byte)] ++ text "0").
Proof.
  apply (version_for_dll_forgets_the_dot (text "3") "1"%byte (text "0")).
  - split; [discriminate|repeat constructor].
  - reflexivity.
  - split; [discriminate|repeat constructor].
Defined.

(** * The flags *)

Lemma has_flag_joined (A : Type) (value : A -> Z) (f : A) (fs : list A) :
  (forall g, Z.land (value g) (value f) <> 0 <-> g = f) ->
  has_flag (joined (map value fs)) (value f) = true <-> In f fs.
Proof.
  intros Hbits. unfold has_flag. induction fs as [|g fs IH].
  - cbn. split; [discriminate|intros []].
  - cbn [map joined fold_right In]. fold (joined (map value fs)).
    rewrite Z.land_lor_distr_l, negb_true_iff, Z.eqb_neq, Z.lor_eq_0_iff.
    rewrite negb_true_iff, Z.eqb_neq in IH.
    specialize (Hbits g).
    destruct (Z.eq_dec (Z.land (value g) (value f)) 0) as [E|E];
      destruct (Z.eq_dec (Z.land (joined (map value fs)) (value f)) 0)
        as [E'|E']; tauto.
Qed.

(** X21. The values of [arg_flags] and of [flags_t] are single bits, each
    its own: in flags joined with [|], testing one of them with [&] says
    whether it was among those joined. *)
Theorem flags_are_told_apart :
  (forall fs f, f <> noargflags ->
     (has_flag (joined (map arg_flags_value fs)) (arg_flags_value f) = true
      <-> In f fs)) /\
  (forall fs f, f <> noflags ->
     (has_flag (joined (map flags_t_value fs)) (flags_t_value f) = true
      <-> In f fs)).
Proof.
  split; intros fs f Hf; apply has_flag_joined; intros g;
    destruct f; try congruence; destruct g; cbn;
    split; intros H; try reflexivity; try discriminate;
    exfalso; apply H; reflexivity.
Qed.

(** * The final flush, for the encodings scanned by bytes *)

Section FlushProperties.

Variable utf16_to_utf8 : list Z -> list byte.
Variable bytes_to_utf8 : encodings -> list byte -> list byte.

Lemma flush_of_unterminated e bytes byte_offset :
  code_unit e = char ->
  0 <= byte_offset < bytes_size bytes ->
  bytes_size bytes < size_t_max ->
  first_line [] (skipn (Z.to_nat byte_offset) bytes) = None ->
  next_utf8_lines utf16_to_utf8 bytes_to_utf8 true
    (mk_encoded_buffer e bytes byte_offset)
  = Done ([in_utf8 bytes_to_utf8 e (skipn (Z.to_nat byte_offset) bytes)],
          mk_encoded_buffer e bytes (bytes_size bytes)).
Proof.
  intros He Hb Hmax Hn. unfold next_utf8_lines. rewrite loop_S.
  cbn [e_ bytes_ last_]. rewrite He.
  pose proof (next_line_list bytes true byte_offset ltac:(lia)) as Hl.
  rewrite Hn in Hl. rewrite Hl. cbn [bind]. cbv zeta.
  assert (size_t_sub (bytes_size bytes) byte_offset
          = bytes_size bytes - byte_offset) as Hc.
  { unfold size_t_sub. apply Z.mod_small. lia. }
  unfold empty. cbn [count]. rewrite Hc. unfold set_last. cbn [e_ bytes_].
  destruct (bytes_size bytes - byte_offset =? 0) eqn:E0;
    [apply Z.eqb_eq in E0; lia|].
  assert (chars_of bytes (mk_view byte_offset (bytes_size bytes - byte_offset))
          = Done (skipn (Z.to_nat byte_offset) bytes)) as Hch.
  { unfold chars_of. cbn [data count].
    replace ((0 <=? byte_offset)
             && (byte_offset + (bytes_size bytes - byte_offset)
                 <=? bytes_size bytes)) with true.
    - unfold slice. rewrite firstn_all2; [reflexivity|].
      rewrite length_skipn. unfold bytes_size. lia.
    - symmetry. apply andb_true_intro. split; apply Z.leb_le; lia. }
  rewrite (conv_char _ _ _ _ _ _ He Hch). cbn [bind].
  destruct (length bytes) eqn:El; [unfold bytes_size in Hb; lia|].
  rewrite loop_at_end; [reflexivity|reflexivity|].
  cbn [e_ bytes_]. now rewrite He.
Qed.

Local Abbreviation next_utf8_lines :=
  (next_utf8_lines utf16_to_utf8 bytes_to_utf8).
Local Abbreviation in_utf8 := (in_utf8 bytes_to_utf8).

(** X22. With no terminated line left in the buffer, the final flush
    hands over all the bytes behind the offset as one line, as they stand,
    the separators they may begin with among them. *)
Theorem flush_hands_over_what_is_left e bytes byte_offset :
  code_unit e = char ->
  0 <= byte_offset < bytes_size bytes ->
  bytes_size bytes < size_t_max ->
  first_line [] (skipn (Z.to_nat byte_offset) bytes) = None ->
  next_utf8_lines true (mk_encoded_buffer e bytes byte_offset)
  = Done ([in_utf8 e (skipn (Z.to_nat byte_offset) bytes)],
          mk_encoded_buffer e bytes (bytes_size bytes)).
Proof. apply flush_of_unterminated. Qed.

End FlushProperties.

Lemma flush_hands_over_what_is_left_witness :
  next_utf8_lines low_bytes same_bytes true
    (mk_encoded_buffer utf8 (text "a" ++ [cr; lf] ++ text "bc") 2)
  = Done ([in_utf8 same_bytes utf8
             (skipn 2 (text "a" ++ [cr; lf] ++ text "bc"))],
          mk_encoded_buffer utf8 (text "a" ++ [cr; lf] ++ text "bc")
            (bytes_size (text "a" ++ [cr; lf] ++ text "bc"))).
Proof.
  apply (flush_hands_over_what_is_left low_bytes same_bytes utf8
           (text "a" ++ [cr; lf] ++ text "bc") 2).
  - reflexivity.
  - vm_compute. split; [discriminate|reflexivity].
  - vm_compute. reflexivity.
  - vm_compute. reflexivity.
Defined.
